(** * DVID: the ROI data type and the read-only gate of the HTTP router

    A shallow embedding of [datatype/roi/roi.go] (the ROI storage engine:
    RLE index keys, [Put], [getROI], [PointQuery], [Partition]) and of the
    routing part of the [server] package ([initRoutes], [repoSelector]),
    together with the properties the specification states about them.

    Conventions.  Go's [int32] and [uint32] are modelled as [Z] with the
    wrap-around written out ([int32], [uint32]); a byte is a [Z] in
    [0, 256); a byte slice is a [list Z]; Go arrays [[3]int32] and
    [[4]int32] are records whose fields are named after the array index. *)

From Stdlib Require Import ZArith Lia Bool Sorted Ascii.
From stdpp Require Import base list strings gmap sorting.

Local Open Scope Z_scope.

(** ** Machine integers *)

(** [math.MaxInt32] and [math.MinInt32]. *)
Module math.

Definition MaxInt32 : Z := 2147483647.
Definition MinInt32 : Z := -2147483648.

End math.

Module Int.

(** Conversion to [int32]: the value modulo 2^32 in [MinInt32, MaxInt32]. *)
Definition int32 (v : Z) : Z := (v + 2147483648) mod 4294967296 - 2147483648.

(** Conversion to [uint32]. *)
Definition uint32 (v : Z) : Z := v mod 4294967296.

Definition is_int32 (v : Z) : Prop := math.MinInt32 <= v <= math.MaxInt32.
Definition is_uint32 (v : Z) : Prop := 0 <= v < 4294967296.

(** Go's [/] and [%] on integers truncate towards zero; a zero divisor is a
    run-time panic, which the callers model explicitly. *)
Definition div32 (a b : Z) : Z := int32 (Z.quot a b).
Definition rem32 (a b : Z) : Z := int32 (Z.rem a b).

End Int.
Export Int.

(** ** Byte strings: [encoding/binary] and [bytes.Compare] *)

Module Bin.

(** [binary.BigEndian.PutUint32] / [binary.Write(buf, binary.BigEndian, v)]
    for a [uint32]: most significant byte first. *)
Definition PutUint32 (v : Z) : list Z :=
  [ (v / 16777216) mod 256; (v / 65536) mod 256; (v / 256) mod 256; v mod 256 ].

(** [binary.BigEndian.Uint32]; on bytes the [|] of the shifted bytes is
    their sum. *)
Definition Uint32 (b : list Z) : Z :=
  match b with
  | b0 :: b1 :: b2 :: b3 :: _ => b3 + b2 * 256 + b1 * 65536 + b0 * 16777216
  | _ => 0
  end.

(** [bytes.Compare]: lexicographic comparison of byte slices. *)
Fixpoint Compare (a b : list Z) : comparison :=
  match a, b with
  | [], [] => Eq
  | [], _ :: _ => Lt
  | _ :: _, [] => Gt
  | x :: a', y :: b' =>
      match x ?= y with
      | Eq => Compare a' b'
      | c => c
      end
  end.

Definition is_byte (b : Z) : Prop := 0 <= b < 256.

End Bin.

(** ** Points, chunk points and the ZYX index of package [dvid] *)

(** [dvid.Point3d], [dvid.ChunkPoint3d] and [dvid.IndexZYX] are all
    [[3]int32]: element 0 is X, element 1 is Y, element 2 is Z. *)
Record Point3d := mkPoint3d { p0 : Z; p1 : Z; p2 : Z }.

Definition ChunkPoint3d := Point3d.
Definition IndexZYX := Point3d.

Module Dvid.

Definition MinIndexZYX : IndexZYX := mkPoint3d math.MinInt32 math.MinInt32 math.MinInt32.
Definition MaxIndexZYX : IndexZYX := mkPoint3d math.MaxInt32 math.MaxInt32 math.MaxInt32.

(** Modelled from the spec: [dvid.IndexZYX.Bytes] is not among the source
    files.  The spec fixes the layout -- Z, then Y, then X, each 4 bytes
    big-endian -- and requires that the bytewise order of keys be the
    (z, y, x0) order over the whole range [MinIndexZYX, MaxIndexZYX]; a
    signed coordinate is therefore written as the big-endian bytes of its
    order-preserving unsigned image [v - math.MinInt32]. *)
Definition coordBytes (v : Z) : list Z := Bin.PutUint32 (uint32 (v - math.MinInt32)).

Definition coordFromBytes (b : list Z) : Z := int32 (Bin.Uint32 b + math.MinInt32).

Definition IndexZYX_Bytes (i : IndexZYX) : list Z :=
  coordBytes (p2 i) ++ coordBytes (p1 i) ++ coordBytes (p0 i).

(** Modelled from the spec: [dvid.IndexZYX.IndexFromBytes], the inverse of
    [IndexZYX_Bytes]; it needs the 12 bytes of the three coordinates. *)
Definition IndexZYX_IndexFromBytes (b : list Z) : option IndexZYX :=
  if (length b <? 12)%nat then None
  else Some {| p0 := coordFromBytes (drop 8 b);
               p1 := coordFromBytes (drop 4 b);
               p2 := coordFromBytes b |}.

(** Modelled from the spec: [dvid.Point3d.Chunk], "a voxel point maps to
    the block (px div Bx, py div By, pz div Bz)". *)
Definition Chunk (pt size : Point3d) : ChunkPoint3d :=
  {| p0 := p0 pt / p0 size; p1 := p1 pt / p1 size; p2 := p2 pt / p2 size |}.

(** Modelled from the spec: [dvid.ChunkPoint3d.MinPoint] and [MaxPoint],
    the minimum and the maximum voxel of a block. *)
Definition MinPoint (c : ChunkPoint3d) (size : Point3d) : Point3d :=
  {| p0 := int32 (p0 c * p0 size);
     p1 := int32 (p1 c * p1 size);
     p2 := int32 (p2 c * p2 size) |}.

Definition MaxPoint (c : ChunkPoint3d) (size : Point3d) : Point3d :=
  {| p0 := int32 ((p0 c + 1) * p0 size - 1);
     p1 := int32 ((p1 c + 1) * p1 size - 1);
     p2 := int32 ((p2 c + 1) * p2 size - 1) |}.

Definition MaxInt32 (a b : Z) : Z := if a >? b then a else b.
Definition MinInt32 (a b : Z) : Z := if a <? b then a else b.

End Dvid.

(** ** The ROI run-length index *)

(** [indexRLE]: the key of a run of blocks, [start] and the [uint32] number
    of blocks along X. *)
Record indexRLE := mkIndexRLE { start : IndexZYX; span : Z }.

Definition wf_indexRLE (i : indexRLE) : Prop :=
  is_int32 (p0 (start i)) /\ is_int32 (p1 (start i)) /\
  is_int32 (p2 (start i)) /\ is_uint32 (span i).

Definition minIndexRLE : indexRLE := mkIndexRLE Dvid.MinIndexZYX 0.
Definition maxIndexRLE : indexRLE := mkIndexRLE Dvid.MaxIndexZYX 4294967295.

(** [indexRLE.Bytes] *)
Definition Bytes (i : indexRLE) : list Z :=
  Dvid.IndexZYX_Bytes (start i) ++ Bin.PutUint32 (span i).

(** [indexRLE.IndexFromBytes]: [None] is the error return, in which case
    the receiver is left as it was. *)
Definition IndexFromBytes (b : list Z) : option indexRLE :=
  if negb (length b =? 16)%nat then None
  else match Dvid.IndexZYX_IndexFromBytes (take 12 b) with
       | None => None
       | Some s => Some {| start := s; span := Bin.Uint32 (drop 12 b) |}
       end.

(** ** ROI spans *)

(** [tuple]: a span [(Z, Y, X0, X1)], a [[4]int32]. *)
Record tuple := mkTuple { t0 : Z; t1 : Z; t2 : Z; t3 : Z }.

Definition wf_tuple (t : tuple) : Prop :=
  is_int32 (t0 t) /\ is_int32 (t1 t) /\ is_int32 (t2 t) /\ is_int32 (t3 t).

(** [tuple.less] *)
Definition less (t : tuple) (block : ChunkPoint3d) : bool :=
  if t0 t >? p2 block then false
  else if t1 t >? p1 block then false
  else if t3 t >? p0 block then false
  else true.

(** [tuple.includes] *)
Definition includes (t : tuple) (block : ChunkPoint3d) : bool :=
  if negb (t0 t =? p2 block) then false
  else if negb (t1 t =? p1 block) then false
  else if (t2 t >? p0 block) || (t3 t <? p0 block) then false
  else true.

(** ** The ordered key-value store *)

(** Modelled from the spec: the ordered key-value store behind
    [storage.SmallDataStore] and the storage context are not among the
    source files.  One store as seen through one (instance, version)
    context is the list of its index bytes, kept in strictly ascending
    bytewise order: [KeyFromIndex] and [IndexFromKey] are inverse to each
    other and are left out, and since every ROI value is
    [dvid.EmptyValue()] a key/value pair is represented by its key.  [put]
    writes one key (overwriting an equal one), a batch collects the puts of
    [batch.Put] and [Commit] applies them in order, and [ProcessRange]
    visits the keys in [[keyLo, keyHi]] in ascending order. *)
Module storage.

Definition Store := list (list Z).

Fixpoint put (k : list Z) (s : Store) : Store :=
  match s with
  | [] => [k]
  | k' :: s' =>
      match Bin.Compare k k' with
      | Lt => k :: k' :: s'
      | Eq => k :: s'
      | Gt => k' :: put k s'
      end
  end.

Definition Batch := list (list Z).

Definition NewBatch : Batch := [].

Definition batchPut (k : list Z) (b : Batch) : Batch := b ++ [k].

Definition Commit (b : Batch) (s : Store) : Store :=
  fold_left (fun s k => put k s) b s.

Definition inRange (keyLo keyHi k : list Z) : bool :=
  match Bin.Compare keyLo k, Bin.Compare k keyHi with
  | Gt, _ => false
  | _, Gt => false
  | _, _ => true
  end.

Definition ProcessRange (keyLo keyHi : list Z) (s : Store) : list (list Z) :=
  filter (fun k => inRange keyLo keyHi k = true) s.

End storage.

(** ** The ROI data instance *)

(** [Properties], the part of [Data] the ROI code reads and writes. *)
Record Properties := mkProperties { BlockSize : Point3d; MinZ : Z; MaxZ : Z }.

Definition Data := Properties.

Definition DefaultBlockSize : Z := 32.

(** The properties [NewDataService] gives a new instance; [blockSize] is
    the parsed "BlockSize" setting, if there is one. *)
Definition NewDataService (blockSize : option Point3d) : Data :=
  {| BlockSize := match blockSize with
                  | Some b => b
                  | None => mkPoint3d DefaultBlockSize DefaultBlockSize DefaultBlockSize
                  end;
     MinZ := math.MaxInt32;
     MaxZ := math.MinInt32 |}.

(** The state a request works on: the instance, the store seen through the
    request's context, whether the store can batch
    ([db.(storage.KeyValueBatcher)]) and the instance properties last
    written with the repo metadata by [datastore.SaveRepoByVersionID]. *)
Record Server := mkServer {
  data : Data;
  db : storage.Store;
  batcher : bool;
  savedRepo : option Properties
}.

Definition newServer (blockSize : option Point3d) : Server :=
  {| data := NewDataService blockSize; db := []; batcher := true; savedRepo := None |}.

(** The body of a [POST /roi], as [json.Unmarshal] into [[]tuple] sees it. *)
Inductive jsonSpans :=
| BadJSON
| Spans (spans : list tuple).

Inductive putError :=
| ErrParse
| ErrNoBatcher.

Definition BATCH_SIZE : Z := 10000.

Definition spanIndex (sp : tuple) : indexRLE :=
  {| start := mkPoint3d (t2 sp) (t1 sp) (t0 sp);
     span := uint32 (int32 (int32 (t3 sp - t2 sp) + 1)) |}.

(** The [for i, span := range spans] loop of [Put]. *)
Fixpoint putLoop (i : Z) (spans : list tuple) (d : Data)
    (batch : storage.Batch) (s : storage.Store)
  : Data * storage.Batch * storage.Store :=
  match spans with
  | [] => (d, batch, s)
  | sp :: rest =>
      let d1 := if t0 sp <? MinZ d
                then {| BlockSize := BlockSize d; MinZ := t0 sp; MaxZ := MaxZ d |}
                else d in
      let d2 := if t0 sp >? MaxZ d1
                then {| BlockSize := BlockSize d1; MinZ := MinZ d1; MaxZ := t0 sp |}
                else d1 in
      let batch1 := storage.batchPut (Bytes (spanIndex sp)) batch in
      if Z.rem (i + 1) BATCH_SIZE =? 0
      then putLoop (i + 1) rest d2 storage.NewBatch (storage.Commit batch1 s)
      else putLoop (i + 1) rest d2 batch1 s
  end.

(** [Data.Put].  The deferred function runs once the mutex is held, that
    is on every return after the batcher check. *)
Definition Put (sv : Server) (jsonBytes : jsonSpans) : option putError * Server :=
  match jsonBytes with
  | BadJSON => (Some ErrParse, sv)
  | Spans spans =>
      if negb (batcher sv) then (Some ErrNoBatcher, sv)
      else
        let '(d, batch, s) := putLoop 0 spans (data sv) storage.NewBatch (db sv) in
        let s' := if negb (Z.rem (Z.of_nat (length spans)) BATCH_SIZE =? 0)
                  then storage.Commit batch s else s in
        (None, {| data := d; db := s'; batcher := batcher sv; savedRepo := Some d |})
  end.

Definition zeroIndexRLE : indexRLE := mkIndexRLE (mkPoint3d 0 0 0) 0.

(** The tuple [getROI] appends for one key; when [IndexFromBytes] fails the
    error is logged and the zero-valued [index] is used. *)
Definition keyTuple (indexBytes : list Z) : tuple :=
  let index := match IndexFromBytes indexBytes with
               | Some i => i
               | None => zeroIndexRLE
               end in
  let z := p2 (start index) in
  let y := p1 (start index) in
  let x0 := p0 (start index) in
  let x1 := int32 (int32 (x0 + int32 (span index)) - 1) in
  mkTuple z y x0 x1.

(** [getROI] *)
Definition getROI (s : storage.Store) : list tuple :=
  map keyTuple (storage.ProcessRange (Bytes minIndexRLE) (Bytes maxIndexRLE) s).

(** ** Point queries *)

(** Modelled from the spec: [sort.Sort(dvid.ByZYX(pts))], the points in
    ascending (z, y, x) order.  Points that compare equal are equal, so the
    sorted list does not depend on the sorting algorithm. *)
Definition leZYX (a b : Point3d) : bool :=
  if p2 a <? p2 b then true
  else if p2 b <? p2 a then false
  else if p1 a <? p1 b then true
  else if p1 b <? p1 a then false
  else p0 a <=? p0 b.

Fixpoint insertZYX (p : Point3d) (l : list Point3d) : list Point3d :=
  match l with
  | [] => [p]
  | q :: l' => if leZYX p q then p :: q :: l' else q :: insertZYX p l'
  end.

Definition sortByZYX (pts : list Point3d) : list Point3d :=
  foldr insertZYX [] pts.

(** The [for] loop of [seekSpan], on the spans from [curSpanI] on. *)
Fixpoint seekLoop (chunkPt : ChunkPoint3d) (rest : list tuple) (curSpanI : nat)
  : nat * bool :=
  match rest with
  | [] => (curSpanI, false)
  | curSpan :: rest' =>
      if less curSpan chunkPt then seekLoop chunkPt rest' (S curSpanI)
      else if includes curSpan chunkPt then (curSpanI, true)
      else (curSpanI, false)
  end.

(** [Data.seekSpan] *)
Definition seekSpan (d : Data) (pt : Point3d) (spans : list tuple) (curSpanI : nat)
  : nat * bool :=
  if (length spans <=? curSpanI)%nat then (curSpanI, false)
  else seekLoop (Dvid.Chunk pt (BlockSize d)) (drop curSpanI spans) curSpanI.

(** The [for i := 0; i < len(pts); i++] loop of [PointQuery]. *)
Fixpoint queryLoop (d : Data) (pts : list Point3d) (spans : list tuple) (curSpan : nat)
  : list bool :=
  match pts with
  | [] => []
  | pt :: pts' =>
      let '(curSpan', included) := seekSpan d pt spans curSpan in
      included :: queryLoop d pts' spans curSpan'
  end.

(** [Data.PointQuery]; [None] is the JSON error return. *)
Definition PointQuery (sv : Server) (jsonBytes : option (list Point3d)) : option (list bool) :=
  match jsonBytes with
  | None => None
  | Some pts =>
      let pts := sortByZYX pts in
      let spans := getROI (db sv) in
      Some (queryLoop (data sv) pts spans 0)
  end.

(** ** Partitioning *)

(** A Go computation that may panic.  The two [for] loops of
    [addSubvolumes] have no bound in the source; the model runs them on
    fuel and answers [OutOfFuel] when the fuel does not suffice. *)
Inductive result (A : Type) :=
| Ok (a : A)
| Panic (msg : string)
| OutOfFuel.

Arguments Ok {A} a.
Arguments Panic {A} msg.
Arguments OutOfFuel {A}.

Definition bind {A B : Type} (m : result A) (k : A -> result B) : result B :=
  match m with
  | Ok a => k a
  | Panic msg => Panic msg
  | OutOfFuel => OutOfFuel
  end.

Notation "x <- m ;; k" := (bind m (fun x => k))
  (at level 100, m at next level, right associativity).

(** [a % b] on [int32], with the run-time panic on a zero divisor. *)
Definition rem (a b : Z) : result Z :=
  if b =? 0 then Panic "integer divide by zero" else Ok (rem32 a b).

(** [s[i]] on a slice, with the run-time panic out of range. *)
Definition index {A : Type} (s : list A) (i : Z) : result A :=
  if i <? 0 then Panic "index out of range"
  else match s !! Z.to_nat i with
       | Some a => Ok a
       | None => Panic "index out of range"
       end.

Record subvolumeT := mkSubvolumeT {
  MinCorner : Point3d;
  MaxCorner : Point3d;
  TotalBlocks : Z;
  ActiveBlocks : Z
}.

Record subvolumesT := mkSubvolumesT {
  NumTotalBlocks : Z;
  NumActiveBlocks : Z;
  NumSubvolumes : Z;
  Subvolumes : list subvolumeT
}.

Record layerT := mkLayerT {
  activeBlocks : list indexRLE;
  minX : Z; maxX : Z;
  minY : Z; maxY : Z;
  minZ : Z; maxZ : Z
}.

(** [Data.newLayer] *)
Definition newLayer (z0 z1 : Z) : layerT :=
  mkLayerT [] math.MaxInt32 math.MinInt32 math.MaxInt32 math.MinInt32 z0 z1.

(** [layerT.extend] *)
Definition extend (layer : layerT) (rle : indexRLE) : layerT :=
  let y := p1 (start rle) in
  let x0 := p0 (start rle) in
  let x1 := int32 (int32 (x0 + int32 (span rle)) - 1) in
  {| activeBlocks := activeBlocks layer ++ [rle];
     minX := if minX layer >? x0 then x0 else minX layer;
     maxX := if maxX layer <? x1 then x1 else maxX layer;
     minY := if minY layer >? y then y else minY layer;
     maxY := if maxY layer <? y then y else maxY layer;
     minZ := minZ layer;
     maxZ := maxZ layer |}.

(** [getYRange] *)
Definition getYRange (blocks : list indexRLE) : Z * Z * bool :=
  fold_left
    (fun '(minY, maxY, found) rle =>
       let minY := if p1 (start rle) <? minY then p1 (start rle) else minY in
       let maxY := if p1 (start rle) >? maxY then p1 (start rle) else maxY in
       (minY, maxY, true))
    blocks (math.MaxInt32, math.MinInt32, false).

(** [getXRange] *)
Definition getXRange (blocks : list indexRLE) (minY maxY : Z)
  : Z * Z * list indexRLE :=
  fold_left
    (fun '(minX, maxX, actives) rle =>
       if (p1 (start rle) >=? minY) && (p1 (start rle) <=? maxY) then
         let minX := if p0 (start rle) <? minX then p0 (start rle) else minX in
         let x1 := int32 (int32 (p0 (start rle) + int32 (span rle)) - 1) in
         let maxX := if x1 >? maxX then x1 else maxX in
         (minX, maxX, actives ++ [rle])
       else (minX, maxX, actives))
    blocks (math.MaxInt32, math.MinInt32, []).

(** [findActives] *)
Definition findActives (blocks : list indexRLE) (minX maxX : Z) : Z :=
  fold_left
    (fun numActive rle =>
       let spanBeg := p0 (start rle) in
       if spanBeg >? maxX then numActive
       else
         let spanEnd := int32 (int32 (spanBeg + int32 (span rle)) - 1) in
         if spanEnd <? minX then numActive
         else
           let x0 := Dvid.MaxInt32 minX spanBeg in
           let x1 := Dvid.MinInt32 maxX spanEnd in
           int32 (numActive + int32 (int32 (x1 - x0) + 1)))
    blocks 0.

(** [totalBlocks] *)
Definition totalBlocks (minCorner maxCorner : ChunkPoint3d) : Z :=
  let dx := int32 (int32 (p0 maxCorner - p0 minCorner) + 1) in
  let dy := int32 (int32 (p1 maxCorner - p1 minCorner) + 1) in
  let dz := int32 (int32 (p2 maxCorner - p2 minCorner) + 1) in
  int32 (int32 (dx * dy) * dz).

(** One column of [addSubvolumes]: the merge into the last subvolume or the
    new subvolume, then the two counters. *)
Definition addColumn (d : Data) (subvolumes : subvolumesT) (mergeThreshold : Z)
    (minCorner maxCorner : ChunkPoint3d) (numTotal numActive : Z)
  : result subvolumesT :=
  svs <- (if numActive <? mergeThreshold then
            let lastI := Z.of_nat (length (Subvolumes subvolumes)) - 1 in
            subvolume <- index (Subvolumes subvolumes) lastI ;;
            let subvolume :=
              {| MinCorner := MinCorner subvolume;
                 MaxCorner := Dvid.MinPoint maxCorner (BlockSize d);
                 TotalBlocks := int32 (TotalBlocks subvolume + numTotal);
                 ActiveBlocks := int32 (ActiveBlocks subvolume + numActive) |} in
            Ok (<[Z.to_nat lastI := subvolume]> (Subvolumes subvolumes))
          else
            let subvolume :=
              {| MinCorner := Dvid.MinPoint minCorner (BlockSize d);
                 MaxCorner := Dvid.MaxPoint maxCorner (BlockSize d);
                 TotalBlocks := numTotal;
                 ActiveBlocks := numActive |} in
            Ok (Subvolumes subvolumes ++ [subvolume])) ;;
  Ok {| NumTotalBlocks := int32 (NumTotalBlocks subvolumes + numTotal);
        NumActiveBlocks := int32 (NumActiveBlocks subvolumes + numActive);
        NumSubvolumes := NumSubvolumes subvolumes;
        Subvolumes := svs |}.

(** The inner [for] of [addSubvolumes]: the columns of one row. *)
Fixpoint columns (fuel : nat) (d : Data) (layer : layerT) (batchsize mergeThreshold : Z)
    (actives : list indexRLE) (begY endY maxX begX xleft : Z)
    (subvolumes : subvolumesT) : result subvolumesT :=
  match fuel with
  | O => OutOfFuel
  | S fuel' =>
      if begX >? maxX then Ok subvolumes
      else
        let endX := int32 (int32 (begX + batchsize) - 1) in
        let '(endX, xleft) :=
          if xleft >? 0 then (int32 (endX + 1), int32 (xleft - 1)) else (endX, xleft) in
        let minCorner := mkPoint3d begX begY (minZ layer) in
        let maxCorner := mkPoint3d endX endY (maxZ layer) in
        let numTotal := totalBlocks minCorner maxCorner in
        let numActive := findActives actives begX endX in
        subvolumes <- addColumn d subvolumes mergeThreshold minCorner maxCorner
                        numTotal numActive ;;
        columns fuel' d layer batchsize mergeThreshold actives begY endY maxX
          (int32 (endX + 1)) xleft subvolumes
  end.

(** The outer [for] of [addSubvolumes]: the rows of the layer. *)
Fixpoint rows (fuel : nat) (d : Data) (layer : layerT) (batchsize mergeThreshold : Z)
    (maxY begY yleft : Z) (subvolumes : subvolumesT) : result subvolumesT :=
  match fuel with
  | O => OutOfFuel
  | S fuel' =>
      if begY >? maxY then Ok subvolumes
      else
        let endY := int32 (int32 (begY + batchsize) - 1) in
        let '(endY, yleft) :=
          if yleft >? 0 then (int32 (endY + 1), int32 (yleft - 1)) else (endY, yleft) in
        let '(minX, maxX, actives) := getXRange (activeBlocks layer) begY endY in
        subvolumes <- (if (0 <? length actives)%nat then
                         let dx := int32 (int32 (maxX - minX) + 1) in
                         xleft <- rem dx batchsize ;;
                         columns fuel' d layer batchsize mergeThreshold actives
                           begY endY maxX minX xleft subvolumes
                       else Ok subvolumes) ;;
        rows fuel' d layer batchsize mergeThreshold maxY (int32 (endY + 1)) yleft
          subvolumes
  end.

(** [Data.addSubvolumes] *)
Definition addSubvolumes (fuel : nat) (d : Data) (layer : layerT)
    (subvolumes : subvolumesT) (batchsize : Z) : result subvolumesT :=
  let mergeThreshold :=
    div32 (int32 (int32 (batchsize * batchsize) * batchsize)) 10 in
  let '(minY, maxY, found) := getYRange (activeBlocks layer) in
  if negb found then Ok subvolumes
  else
    let dy := int32 (int32 (maxY - minY) + 1) in
    yleft <- rem dy batchsize ;;
    rows fuel d layer batchsize mergeThreshold maxY minY yleft subvolumes.

(** The Z cursor of [Partition]: [layerBegZ], [layerEndZ] and [zleft]. *)
Record zcursor := mkZcursor { layerBegZ : Z; layerEndZ : Z; zleft : Z }.

(** The cursor [Partition] starts with. *)
Definition firstLayer (d : Data) (batchsize : Z) : result zcursor :=
  let dz := int32 (int32 (MaxZ d - MinZ d) + 1) in
  zleft <- rem dz batchsize ;;
  let layerBegZ := MinZ d in
  let layerEndZ := int32 (int32 (layerBegZ + batchsize) - 1) in
  Ok (mkZcursor layerBegZ layerEndZ zleft).

(** "Init variables for next layer" *)
Definition nextLayer (batchsize : Z) (c : zcursor) : zcursor :=
  let layerBegZ := int32 (layerEndZ c + 1) in
  let layerEndZ := int32 (layerEndZ c + batchsize) in
  if zleft c >? 0
  then mkZcursor layerBegZ (int32 (layerEndZ + 1)) (int32 (zleft c - 1))
  else mkZcursor layerBegZ layerEndZ (zleft c).

(** The variables the [ProcessRange] callback of [Partition] closes over;
    [debugLog] collects the Z range of every layer announced with
    [dvid.Debugf] before it is processed. *)
Record partition := mkPartition {
  cursor : zcursor;
  layer : layerT;
  subvolumes : subvolumesT;
  debugLog : list (Z * Z)
}.

(** The [ProcessRange] callback of [Partition], for one key. *)
Definition partitionChunk (fuel : nat) (d : Data) (batchsize : Z)
    (st : partition) (indexBytes : list Z) : result partition :=
  let index := match IndexFromBytes indexBytes with
               | Some i => i
               | None => zeroIndexRLE
               end in
  let z := p2 (start index) in
  st <- (if z >? layerEndZ (cursor st) then
           svs <- addSubvolumes fuel d (layer st) (subvolumes st) batchsize ;;
           let c := nextLayer batchsize (cursor st) in
           Ok {| cursor := c;
                 layer := newLayer (layerBegZ c) (layerEndZ c);
                 subvolumes := svs;
                 debugLog := debugLog st ++ [(minZ (layer st), maxZ (layer st))] |}
         else Ok st) ;;
  Ok {| cursor := cursor st;
        layer := extend (layer st) index;
        subvolumes := subvolumes st;
        debugLog := debugLog st |}.

Fixpoint partitionRange (fuel : nat) (d : Data) (batchsize : Z)
    (st : partition) (keys : list (list Z)) : result partition :=
  match keys with
  | [] => Ok st
  | k :: keys' =>
      st <- partitionChunk fuel d batchsize st k ;;
      partitionRange fuel d batchsize st keys'
  end.

(** [Data.Partition]: the subvolumes that are marshalled to JSON, and the
    layers that were announced. *)
Definition Partition (fuel : nat) (sv : Server) (batchsize : Z)
  : result (subvolumesT * list (Z * Z)) :=
  let d := data sv in
  c <- firstLayer d batchsize ;;
  let st := {| cursor := c;
               layer := newLayer (layerBegZ c) (layerEndZ c);
               subvolumes := mkSubvolumesT 0 0 0 [];
               debugLog := [] |} in
  st <- partitionRange fuel d batchsize st
          (storage.ProcessRange (Bytes minIndexRLE) (Bytes maxIndexRLE) (db sv)) ;;
  st <- (if (0 <? length (activeBlocks (layer st)))%nat then
           svs <- addSubvolumes fuel d (layer st) (subvolumes st) batchsize ;;
           Ok {| cursor := cursor st;
                 layer := layer st;
                 subvolumes := svs;
                 debugLog := debugLog st ++ [(minZ (layer st), maxZ (layer st))] |}
         else Ok st) ;;
  Ok ({| NumTotalBlocks := NumTotalBlocks (subvolumes st);
         NumActiveBlocks := NumActiveBlocks (subvolumes st);
         NumSubvolumes := int32 (Z.of_nat (length (Subvolumes (subvolumes st))));
         Subvolumes := Subvolumes (subvolumes st) |},
      debugLog st).

(** ** Strings: [strings.ToLower], [strings.Split], [strconv.Atoi] *)

Module Str.

Definition code (c : Ascii.ascii) : Z := Z.of_N (Ascii.N_of_ascii c).

Definition lowerChar (c : Ascii.ascii) : Ascii.ascii :=
  if (65 <=? code c) && (code c <=? 90)
  then Ascii.ascii_of_N (Z.to_N (code c + 32))
  else c.

(** [strings.ToLower], on ASCII. *)
Fixpoint ToLower (s : string) : string :=
  match s with
  | EmptyString => EmptyString
  | String c s' => String (lowerChar c) (ToLower s')
  end.

(** [strings.Split(s, sep)] for a one-character separator: never empty. *)
Fixpoint Split (s : string) (sep : Ascii.ascii) : list string :=
  match s with
  | EmptyString => [EmptyString]
  | String c s' =>
      if Ascii.eqb c sep then EmptyString :: Split s' sep
      else match Split s' sep with
           | [] => [String c EmptyString]
           | w :: ws => String c w :: ws
           end
  end.

Definition isDigit (c : Ascii.ascii) : bool := (48 <=? code c) && (code c <=? 57).

Inductive NumError :=
| ErrSyntax
| ErrRange.

Fixpoint digits (acc : Z) (s : string) : option Z :=
  match s with
  | EmptyString => Some acc
  | String c s' => if isDigit c then digits (acc * 10 + (code c - 48)) s' else None
  end.

(** [strconv.Atoi]: an optional sign and one or more decimal digits, in
    the range of a 64-bit [int]. *)
Definition Atoi (s : string) : Z + NumError :=
  let '(neg, s0) :=
    match s with
    | String c s' =>
        if Ascii.eqb c "+" then (false, s')
        else if Ascii.eqb c "-" then (true, s')
        else (false, s)
    | EmptyString => (false, s)
    end in
  match s0 with
  | EmptyString => inr ErrSyntax
  | String _ _ =>
      match digits 0 s0 with
      | None => inr ErrSyntax
      | Some n =>
          let v := if neg : bool then - n else n in
          if (v <? -9223372036854775808) || (9223372036854775807 <? v)
          then inr ErrRange
          else inl v
      end
  end.

(** A decimal integer, as a numeral: an optional sign followed by one or
    more decimal digits. *)
Definition allDigits (s : string) : Prop :=
  Forall (fun c => isDigit c = true) (String.list_ascii_of_string s).

Definition decimalInteger (s : string) : Prop :=
  exists sign ds : string,
    s = (sign ++ ds)%string /\
    (sign = "" \/ sign = "+" \/ sign = "-")%string /\
    ds <> ""%string /\ allDigits ds.

End Str.

(** ** HTTP requests *)

(** What the handlers read of an [http.Request]: the method, [URL.Path],
    the parsed query [URL.Query()], and the body as [json.Unmarshal] sees
    it at the two types the ROI handlers decode it to. *)
Record Request := mkRequest {
  Method : string;
  Path : string;
  Query : gmap string (list string);
  BodySpans : jsonSpans;
  BodyPoints : option (list Point3d)
}.

(** [url.Values.Get] *)
Definition Get (v : gmap string (list string)) (key : string) : string :=
  match v !! key with
  | Some (x :: _) => x
  | _ => ""%string
  end.

(** ** The HTTP handler of an ROI instance *)

(** The calls of [server.BadRequest] (status 400) in [Data.ServeHTTP]. *)
Inductive badRequest :=
| InvalidContext          (* "ServeHTTP has invalid context" *)
| IncompleteAPI           (* "incomplete API specification" *)
| PutFailed (e : putError)
| PtqueryRequiresPOST     (* "ptquery requires POST with list of points" *)
| PointQueryFailed
| PartitionOnlyGET        (* "partition only supports GET request" *)
| BatchsizeError (e : Str.NumError)  (* "Error reading batchsize query string: ..." *)
| OnlyGETorPOST.          (* "Can only handle GET or POST HTTP verbs" *)

Inductive response :=
| HelpText
| InfoJSON (p : Properties)
| SpansJSON (spans : list tuple)
| InclusionsJSON (inclusions : list bool)
| SubvolumesJSON (s : subvolumesT)
| Nothing                          (* status 200, nothing written *)
| BadRequest (e : badRequest)      (* status 400 *)
| Panicked (msg : string)
| Unfinished.

Definition WebAPIPath : string := "/api/".

(** "Break URL request into arguments": the path after [WebAPIPath], split
    at the slashes, without a last empty part. *)
Definition urlParts (path : string) : list string :=
  let url := String.substring (String.length WebAPIPath)
               (String.length path - String.length WebAPIPath) path in
  let parts := Str.Split url "/"%char in
  match last parts with
  | Some EmptyString => take (length parts - 1) parts
  | _ => parts
  end.

(** [Data.ServeHTTP]; [versions] is what [datastore.FromContext] finds in
    the request context ([None]: the error return). *)
Definition ServeHTTP (fuel : nat) (sv : Server) (versions : option (list Z))
    (r : Request) : response * Server :=
  match versions with
  | None => (BadRequest InvalidContext, sv)
  | Some _ =>
      if (String.length (Path r) <? String.length WebAPIPath)%nat
      then (Panicked "slice bounds out of range", sv)
      else
        match urlParts (Path r) !! 3%nat with
        | None => (BadRequest IncompleteAPI, sv)
        | Some command =>
            let method := Str.ToLower (Method r) in
            if String.eqb command "help" then (HelpText, sv)
            else if String.eqb command "info" then (InfoJSON (data sv), sv)
            else if String.eqb command "roi" then
              if String.eqb method "get" then (SpansJSON (getROI (db sv)), sv)
              else if String.eqb method "post" then
                match Put sv (BodySpans r) with
                | (Some e, sv') => (BadRequest (PutFailed e), sv')
                | (None, sv') => (Nothing, sv')
                end
              else (Nothing, sv)
            else if String.eqb command "ptquery" then
              if String.eqb method "get" then (BadRequest PtqueryRequiresPOST, sv)
              else if String.eqb method "post" then
                match PointQuery sv (BodyPoints r) with
                | None => (BadRequest PointQueryFailed, sv)
                | Some inclusions => (InclusionsJSON inclusions, sv)
                end
              else (Nothing, sv)
            else if String.eqb command "partition" then
              if negb (String.eqb method "get") then (BadRequest PartitionOnlyGET, sv)
              else
                let batchsizeStr := Get (Query r) "batchsize" in
                match Str.Atoi batchsizeStr with
                | inr err => (BadRequest (BatchsizeError err), sv)
                | inl batchsize =>
                    match Partition fuel sv (int32 batchsize) with
                    | Ok (s, _) => (SubvolumesJSON s, sv)
                    | Panic msg => (Panicked msg, sv)
                    | OutOfFuel => (Unfinished, sv)
                    end
                end
            else (BadRequest OnlyGETorPOST, sv)
        end
  end.

(** ** The HTTP router of package [server] *)

(** The part of the goji router ([github.com/zenazn/goji/web]) that
    [initRoutes] relies on.  A string pattern is a list of path segments,
    each a literal or a named parameter [:name] that matches one non-empty
    segment, optionally ended by [/*], which matches any rest after the
    slash.  [Get] routes also serve HEAD; [Handle] routes serve every
    method.  The middleware of a mux runs on every request the mux
    receives, in the order of the [Use] calls, before the mux looks for a
    route. *)
Module web.

Inductive seg :=
| Lit (s : string)
| Param (name : string).

Record pattern := mkPattern { segs : list seg; wildcard : bool }.

Definition parseSeg (s : string) : seg :=
  match s with
  | String ":"%char name => Param name
  | _ => Lit s
  end.

Definition parse (p : string) : pattern :=
  let parts := tail (Str.Split p "/"%char) in
  match last parts with
  | Some "*"%string => mkPattern (map parseSeg (take (length parts - 1) parts)) true
  | _ => mkPattern (map parseSeg parts) false
  end.

(** The segments of a request path, which must start with a slash. *)
Definition pathSegs (path : string) : option (list string) :=
  match Str.Split path "/"%char with
  | EmptyString :: rest => Some rest
  | _ => None
  end.

Fixpoint matchSegs (ps : list seg) (wild : bool) (path : list string)
    (params : gmap string string) : option (gmap string string) :=
  match ps, path with
  | [], [] => if wild then None else Some params
  | [], _ :: _ => if wild then Some params else None
  | _ :: _, [] => None
  | Lit s :: ps', x :: path' =>
      if String.eqb s x then matchSegs ps' wild path' params else None
  | Param name :: ps', x :: path' =>
      if String.eqb x "" then None
      else matchSegs ps' wild path' (<[name := x]> params)
  end.

Definition matchPattern (p : string) (path : string) : option (gmap string string) :=
  match pathSegs path with
  | None => None
  | Some s => matchSegs (segs (parse p)) (wildcard (parse p)) s ∅
  end.

Inductive verb :=
| GET
| POST
| DELETE
| ALL.

Definition verbMatches (v : verb) (method : string) : bool :=
  match v with
  | GET => String.eqb method "GET" || String.eqb method "HEAD"
  | POST => String.eqb method "POST"
  | DELETE => String.eqb method "DELETE"
  | ALL => true
  end.

Definition verbName (v : verb) : list string :=
  match v with
  | GET => ["GET"; "HEAD"]
  | POST => ["POST"]
  | DELETE => ["DELETE"]
  | ALL => []
  end%string.

End web.

(** The muxes [initRoutes] builds and the handler functions it installs. *)
Inductive mux :=
| WebMux
| silentMux
| mainMux
| repoMux
| instanceMux.

Inductive handlerFunc :=
| loadHandler
| interfaceHandler
| versionHandler
| helpHandler
| typehelpHandler
| serverInfoHandler
| serverTypesHandler
| reposPostHandler
| reposInfoHandler
| repoInfoHandler
| repoNewDataHandler
| repoLockHandler
| repoBranchHandler
| repoDeleteHandler
| mainHandler.

Inductive target :=
| Func (h : handlerFunc)
| Sub (m : mux).

Inductive middleware :=
| RequestID
| Logger
| Recoverer
| AutomaticOptions
| repoSelector
| instanceSelector.

Record route := mkRoute { rverb : web.verb; rpattern : string; rtarget : target }.

Record Mux := mkMux { uses : list middleware; routes : list route }.

(** [initRoutes], together with the [WebMux.Use(middleware.RequestID)] of
    [init]: what each mux is configured with, in the order of the calls. *)
Definition initRoutes (readonly : bool) (m : mux) : Mux :=
  match m with
  | WebMux =>
      {| uses := [RequestID];
         routes := [ mkRoute web.ALL "/api/load" (Sub silentMux);
                     mkRoute web.ALL "/*" (Sub mainMux) ] |}
  | silentMux =>
      {| uses := [];
         routes := [ mkRoute web.GET "/api/load" (Func loadHandler) ] |}
  | mainMux =>
      {| uses := [Logger; Recoverer; AutomaticOptions];
         routes :=
           [ mkRoute web.GET "/interface" (Func interfaceHandler);
             mkRoute web.GET "/interface/version" (Func versionHandler);
             mkRoute web.GET "/api/help" (Func helpHandler);
             mkRoute web.GET "/api/help/" (Func helpHandler);
             mkRoute web.GET "/api/help/:typename" (Func typehelpHandler);
             mkRoute web.GET "/api/server/info" (Func serverInfoHandler);
             mkRoute web.GET "/api/server/info/" (Func serverInfoHandler);
             mkRoute web.GET "/api/server/types" (Func serverTypesHandler);
             mkRoute web.GET "/api/server/types/" (Func serverTypesHandler) ]
           ++ (if negb readonly
               then [ mkRoute web.POST "/api/repos" (Func reposPostHandler) ]
               else [])
           ++ [ mkRoute web.GET "/api/repos/info" (Func reposInfoHandler);
                mkRoute web.ALL "/api/repo/:uuid/*" (Sub repoMux);
                mkRoute web.ALL "/api/node/:uuid/:dataname/:keyword" (Sub instanceMux);
                mkRoute web.ALL "/api/node/:uuid/:dataname/:keyword/*" (Sub instanceMux);
                mkRoute web.GET "/*" (Func mainHandler) ] |}
  | repoMux =>
      {| uses := [repoSelector];
         routes :=
           [ mkRoute web.GET "/api/repo/:uuid/info" (Func repoInfoHandler);
             mkRoute web.POST "/api/repo/:uuid/instance" (Func repoNewDataHandler);
             mkRoute web.POST "/api/repo/:uuid/lock" (Func repoLockHandler);
             mkRoute web.POST "/api/repo/:uuid/branch" (Func repoBranchHandler);
             mkRoute web.DELETE "/api/repo/:uuid/:dataname" (Func repoDeleteHandler) ] |}
  | instanceMux =>
      {| uses := [repoSelector; instanceSelector]; routes := [] |}
  end.

(** The functions of package [datastore] the two selectors call; [None] is
    the error return. *)
Record Datastore := mkDatastore {
  MatchingUUID : string -> option (string * Z);
  RepoFromUUID : string -> option Z;
  VersionFromUUID : string -> option Z;
  GetDataByName : Z -> string -> option string
}.

Inductive envValue :=
| EnvUUID (uuid : string)
| EnvVersionID (v : Z)
| EnvRepo (repo : Z).

(** [web.C]: the URL parameters of the matched route and the environment. *)
Record C := mkC { URLParams : gmap string string; Env : gmap string envValue }.

(** The calls of [BadRequest] (status 400) in the two selectors. *)
Inductive refusal :=
| ReadOnlyMode    (* "Server in read-only mode and will only accept GET and HEAD requests" *)
| BadUUIDFormat   (* "Bad format for UUID" *)
| DatastoreError. (* the [err.Error()] of a datastore call *)

(** What becomes of a request: a handler function is invoked, the request
    reaches the [ServeHTTP] of a data instance, or the router or a selector
    answers by itself. *)
Inductive outcome :=
| Invoked (h : handlerFunc) (c : C)
| DataServeHTTP (dataservice : string) (repo versionID : Z)
| Status400 (e : refusal)
| Status404 (validMethods : list string)
| Allow (validMethods : list string).

Definition Handler := C -> Request -> outcome.

(** The closure [repoSelector] returns. *)
Definition repoSelectorFn (readonly : bool) (ds : Datastore) (h : Handler) : Handler :=
  fun c r =>
    let action := Str.ToLower (Method r) in
    if readonly && negb (String.eqb action "get") && negb (String.eqb action "head")
    then Status400 ReadOnlyMode
    else
      match MatchingUUID ds (default ""%string (URLParams c !! "uuid"%string)) with
      | None => Status400 DatastoreError
      | Some (uuid, versionID) =>
          let env := <["uuid"%string := EnvUUID uuid]>
                       (<["versionID"%string := EnvVersionID versionID]> (Env c)) in
          match RepoFromUUID ds uuid with
          | None => Status400 DatastoreError
          | Some repo =>
              h (mkC (URLParams c) (<["repo"%string := EnvRepo repo]> env)) r
          end
      end.

(** The closure [instanceSelector] returns; it does not call [h]. *)
Definition instanceSelectorFn (ds : Datastore) (h : Handler) : Handler :=
  fun c r =>
    let dataname := default ""%string (URLParams c !! "dataname"%string) in
    match Env c !! "uuid"%string with
    | Some (EnvUUID uuid) =>
        match RepoFromUUID ds uuid with
        | None => Status400 DatastoreError
        | Some repo =>
            match VersionFromUUID ds uuid with
            | None => Status400 DatastoreError
            | Some versionID =>
                match GetDataByName ds repo dataname with
                | None => Status400 DatastoreError
                | Some dataservice => DataServeHTTP dataservice repo versionID
                end
            end
        end
    | _ => Status400 BadUUIDFormat
    end.

(** [middleware.AutomaticOptions] answers an OPTIONS request that would be
    a 404 with the methods the path is routed for; the logger, the
    recoverer and the request id do not change what a request becomes. *)
Definition runMiddleware (readonly : bool) (ds : Datastore) (mw : middleware)
    (h : Handler) : Handler :=
  match mw with
  | RequestID | Logger | Recoverer => h
  | AutomaticOptions =>
      fun c r =>
        match h c r with
        | Status404 (m :: ms) =>
            if String.eqb (Method r) "OPTIONS" then Allow (m :: ms)
            else Status404 (m :: ms)
        | o => o
        end
  | repoSelector => repoSelectorFn readonly ds h
  | instanceSelector => instanceSelectorFn ds h
  end.

(** The first route, in the order of registration, whose method and
    pattern match. *)
Fixpoint findRoute (rs : list route) (method path : string)
  : option (target * gmap string string) :=
  match rs with
  | [] => None
  | rt :: rs' =>
      match web.matchPattern (rpattern rt) path with
      | Some params =>
          if web.verbMatches (rverb rt) method then Some (rtarget rt, params)
          else findRoute rs' method path
      | None => findRoute rs' method path
      end
  end.

(** The methods of the routes whose pattern matches the path. *)
Definition validMethods (rs : list route) (path : string) : list string :=
  flat_map (fun rt => match web.matchPattern (rpattern rt) path with
                      | Some _ => web.verbName (rverb rt)
                      | None => []
                      end) rs.

(** The router at the bottom of a mux's middleware stack. *)
Definition router (m : Mux) (call : target -> Handler) : Handler :=
  fun c r =>
    match findRoute (routes m) (Method r) (Path r) with
    | Some (t, params) => call t (mkC params (Env c)) r
    | None => Status404 (validMethods (routes m) (Path r))
    end.

(** A mux as a handler: its middleware, first [Use]d outermost, around its
    router. *)
Definition serveMux (readonly : bool) (ds : Datastore) (m : Mux)
    (call : target -> Handler) : Handler :=
  foldr (runMiddleware readonly ds) (router m call) (uses m).

Definition invoke (h : handlerFunc) : Handler := fun c _ => Invoked h c.

(** [silentMux], [repoMux] and [instanceMux] route to handler functions
    only. *)
Definition serveSub (readonly : bool) (ds : Datastore) (m : mux) : Handler :=
  serveMux readonly ds (initRoutes readonly m)
    (fun t => match t with
              | Func h => invoke h
              | Sub _ => fun _ _ => Status404 []
              end).

Definition serveMain (readonly : bool) (ds : Datastore) : Handler :=
  serveMux readonly ds (initRoutes readonly mainMux)
    (fun t => match t with
              | Func h => invoke h
              | Sub m => serveSub readonly ds m
              end).

(** [WebMux], the handler installed at the root by [serveHttp]. *)
Definition serveHttp (readonly : bool) (ds : Datastore) (r : Request) : outcome :=
  serveMux readonly ds (initRoutes readonly WebMux)
    (fun t => match t with
              | Func h => invoke h
              | Sub mainMux => serveMain readonly ds
              | Sub m => serveSub readonly ds m
              end)
    (mkC ∅ ∅) r.

(** A request path inside [/api/repo/...] or [/api/node/...]: one that the
    patterns under which [initRoutes] mounts [repoMux] and [instanceMux]
    match. *)
Definition insideRepoOrNode (path : string) : Prop :=
  is_Some (web.matchPattern "/api/repo/:uuid/*" path) \/
  is_Some (web.matchPattern "/api/node/:uuid/:dataname/:keyword" path) \/
  is_Some (web.matchPattern "/api/node/:uuid/:dataname/:keyword/*" path).

(** ** Notions the properties are stated with *)

(** Bytewise order of keys. *)
Definition keyLt (a b : list Z) : Prop := Bin.Compare a b = Lt.

(** The key [Put] writes for a span. *)
Definition key (t : tuple) : list Z := Bytes (spanIndex t).

(** What one round of the loop of [Put] does to the extents. *)
Definition extendZ (d : Data) (sp : tuple) : Data :=
  let d1 := if t0 sp <? MinZ d
            then {| BlockSize := BlockSize d; MinZ := t0 sp; MaxZ := MaxZ d |}
            else d in
  if t0 sp >? MaxZ d1
  then {| BlockSize := BlockSize d1; MinZ := MinZ d1; MaxZ := t0 sp |}
  else d1.

(** A sequence of [POST /roi] requests, in order. *)
Definition posts (sv : Server) (bodies : list jsonSpans) : Server :=
  foldl (fun sv body => snd (Put sv body)) sv bodies.

(** The spans of the bodies that parse. *)
Definition postedSpans (bodies : list jsonSpans) : list tuple :=
  flat_map (fun body => match body with
                        | BadJSON => []
                        | Spans spans => spans
                        end) bodies.

(** (z, y, x0) order on spans, strict and not. *)
Definition ltZYX0 (a b : tuple) : Prop :=
  t0 a < t0 b \/ (t0 a = t0 b /\ (t1 a < t1 b \/ (t1 a = t1 b /\ t2 a < t2 b))).

Definition leZYX0 (a b : tuple) : Prop :=
  t0 a < t0 b \/ (t0 a = t0 b /\ (t1 a < t1 b \/ (t1 a = t1 b /\ t2 a <= t2 b))).

(** Two spans of one (z, y) row whose X intervals touch or overlap. *)
Definition touchOrOverlap (a b : tuple) : Prop :=
  t0 a = t0 b /\ t1 a = t1 b /\ t2 a <= t3 b + 1 /\ t2 b <= t3 a + 1.

(** The canonical form the specification asks of [GET /roi]: strictly
    ascending in (z, y, x0), no two spans touching or overlapping. *)
Definition canonical (spans : list tuple) : Prop :=
  StronglySorted ltZYX0 spans /\
  forall a b, In a spans -> In b spans -> a <> b -> ~ touchOrOverlap a b.

(** The block of a voxel point lies in some span of the ROI. *)
Definition blockInROI (d : Data) (spans : list tuple) (pt : Point3d) : bool :=
  existsb (fun t => includes t (Dvid.Chunk pt (BlockSize d))) spans.




(** ** Padding *)


(** ** Notions the further properties are stated with *)

(** The last block of a run as [extend], [getXRange] and [findActives]
    compute it: [x0 + int32(span) - 1]. *)
Definition lastX (rle : indexRLE) : Z :=
  int32 (int32 (p0 (start rle) + int32 (span rle)) - 1).

(** The Y test of [getXRange]. *)
Definition inRow (minY maxY : Z) (rle : indexRLE) : bool :=
  (p1 (start rle) >=? minY) && (p1 (start rle) <=? maxY).

(** The number of blocks a run shares with the columns [[minX, maxX]], as
    one round of the loop of [findActives] adds it. *)
Definition activeIn (minX maxX : Z) (rle : indexRLE) : Z :=
  let spanBeg := p0 (start rle) in
  if spanBeg >? maxX then 0
  else
    let spanEnd := lastX rle in
    if spanEnd <? minX then 0
    else Dvid.MinInt32 maxX spanEnd - Dvid.MaxInt32 minX spanBeg + 1.

(** The sum of a list of integers. *)
Definition sumZ (l : list Z) : Z := foldr Z.add 0 l.

(** A run whose blocks all have [int32] coordinates: its last block
    [x0 + span - 1] does not wrap around. *)
Definition fits (rle : indexRLE) : Prop :=
  is_int32 (p0 (start rle)) /\ is_int32 (p1 (start rle)) /\
  1 <= span rle /\ p0 (start rle) + span rle - 1 <= math.MaxInt32.

(** The counters in the header of a partition are the ([int32]) sums of
    the counters of its subvolumes. *)
Definition countersAgree (s : subvolumesT) : Prop :=
  NumTotalBlocks s = int32 (sumZ (map TotalBlocks (Subvolumes s))) /\
  NumActiveBlocks s = int32 (sumZ (map ActiveBlocks (Subvolumes s))).




(** The URL parameters goji binds on a path
    [/api/node/<uuid>/<dataname>/<keyword>...]. *)
Definition nodeParams (u d k : string) : gmap string string :=
  <["keyword"%string := k]> (<["dataname"%string := d]> (<["uuid"%string := u]> ∅)).

(** The handlers that start with the type assertion
    [(c.Env["repo"]).(datastore.Repo)]. *)
Definition repoHandler (h : handlerFunc) : bool :=
  match h with
  | repoInfoHandler | repoNewDataHandler | repoLockHandler
  | repoBranchHandler | repoDeleteHandler => true
  | _ => false
  end.

(** The order [sort.Sort(dvid.ByZYX(pts))] sorts by, as a relation. *)
Definition leZYX_rel (a b : Point3d) : Prop := leZYX a b = true.

(** ** Big-endian facts *)

Lemma PutUint32_length v : length (Bin.PutUint32 v) = 4%nat.
Proof. reflexivity. Qed.

Lemma PutUint32_bytes v : Forall Bin.is_byte (Bin.PutUint32 v).
Proof.
  unfold Bin.PutUint32, Bin.is_byte.
  repeat constructor; apply Z.mod_pos_bound; lia.
Qed.

Lemma Uint32_PutUint32 v rest :
  is_uint32 v -> Bin.Uint32 (Bin.PutUint32 v ++ rest) = v.
Proof.
  unfold is_uint32, Bin.PutUint32, Bin.Uint32. intros Hv. cbn [app].
  rewrite (Z.mod_small (v / 16777216)) by
    (split; [apply Z.div_pos; lia | apply Z.div_lt_upper_bound; lia]).
  pose proof (Z.div_mod v 256 ltac:(lia)) as E0.
  pose proof (Z.div_mod (v / 256) 256 ltac:(lia)) as E1.
  pose proof (Z.div_mod (v / 256 / 256) 256 ltac:(lia)) as E2.
  rewrite !Z.div_div in E1, E2 by lia. rewrite Z.div_div in E2 by lia.
  change (256 * 256) with 65536 in *. change (65536 * 256) with 16777216 in *.
  assert (E3 : (v / 16777216) mod 256 = v / 16777216).
  { apply Z.mod_small.
    split; [apply Z.div_pos; lia | apply Z.div_lt_upper_bound; lia]. }
  lia.
Qed.

Lemma int32_id v : is_int32 v -> int32 v = v.
Proof.
  unfold is_int32, int32, math.MinInt32, math.MaxInt32. intros H.
  rewrite Z.mod_small; lia.
Qed.

Lemma int32_range v : is_int32 (int32 v).
Proof.
  unfold is_int32, int32, math.MinInt32, math.MaxInt32.
  pose proof (Z.mod_pos_bound (v + 2147483648) 4294967296 ltac:(lia)). lia.
Qed.

Lemma uint32_id v : is_uint32 v -> uint32 v = v.
Proof. unfold is_uint32, uint32. intros H. apply Z.mod_small; lia. Qed.

Lemma uint32_range v : is_uint32 (uint32 v).
Proof. unfold is_uint32, uint32. apply Z.mod_pos_bound; lia. Qed.

Lemma coord_roundtrip v rest :
  is_int32 v -> Dvid.coordFromBytes (Dvid.coordBytes v ++ rest) = v.
Proof.
  intros H. unfold Dvid.coordFromBytes, Dvid.coordBytes.
  assert (Hu : is_uint32 (v - math.MinInt32))
    by (unfold is_int32, is_uint32, math.MinInt32, math.MaxInt32 in *; lia).
  rewrite (uint32_id _ Hu), (Uint32_PutUint32 _ _ Hu).
  replace (v - math.MinInt32 + math.MinInt32) with v by lia. now apply int32_id.
Qed.

Lemma coordBytes_length v : length (Dvid.coordBytes v) = 4%nat.
Proof. reflexivity. Qed.

Lemma Bytes_length i : length (Bytes i) = 16%nat.
Proof. reflexivity. Qed.

Lemma IndexFromBytes_Bytes i : wf_indexRLE i -> IndexFromBytes (Bytes i) = Some i.
Proof.
  destruct i as [[x y z] s]. unfold wf_indexRLE. cbn [start span p0 p1 p2].
  intros (Hx & Hy & Hz & Hs).
  unfold IndexFromBytes. rewrite Bytes_length. cbn [Nat.eqb negb].
  unfold Bytes, Dvid.IndexZYX_Bytes. cbn [start span p0 p1 p2].
  set (bz := Dvid.coordBytes z). set (by_ := Dvid.coordBytes y).
  set (bx := Dvid.coordBytes x). set (bs := Bin.PutUint32 s).
  assert (Lz : length bz = 4%nat) by reflexivity.
  assert (Ly : length by_ = 4%nat) by reflexivity.
  assert (Lx : length bx = 4%nat) by reflexivity.
  assert (T : take 12 ((bz ++ by_ ++ bx) ++ bs) = bz ++ by_ ++ bx).
  { apply take_app_length'. rewrite !length_app. lia. }
  assert (D : drop 12 ((bz ++ by_ ++ bx) ++ bs) = bs).
  { apply drop_app_length'. rewrite !length_app. lia. }
  rewrite T, D. unfold Dvid.IndexZYX_IndexFromBytes.
  replace (length (bz ++ by_ ++ bx)) with 12%nat by (rewrite !length_app; lia).
  cbn [Nat.ltb Nat.leb].
  assert (D8 : drop 8 (bz ++ by_ ++ bx) = bx).
  { rewrite app_assoc. apply drop_app_length'. rewrite length_app. lia. }
  assert (D4 : drop 4 (bz ++ by_ ++ bx) = by_ ++ bx).
  { apply drop_app_length'. lia. }
  rewrite D8, D4. subst bz by_ bx bs.
  rewrite <- (app_nil_r (Dvid.coordBytes x)).
  rewrite !coord_roundtrip by assumption.
  rewrite <- (app_nil_r (Bin.PutUint32 s)), Uint32_PutUint32 by assumption.
  reflexivity.
Qed.




(** ** Wrap-around arithmetic *)

Lemma int32_add_l a b : int32 (int32 a + b) = int32 (a + b).
Proof.
  unfold int32. f_equal.
  replace ((a + 2147483648) mod 4294967296 - 2147483648 + b + 2147483648)
    with ((a + 2147483648) mod 4294967296 + b) by lia.
  rewrite Z.add_mod_idemp_l by lia. f_equal. lia.
Qed.

Lemma int32_add_r a b : int32 (a + int32 b) = int32 (a + b).
Proof. rewrite (Z.add_comm a), int32_add_l. f_equal. lia. Qed.

Lemma int32_sub_l a b : int32 (int32 a - b) = int32 (a - b).
Proof. unfold Z.sub. apply int32_add_l. Qed.

Lemma int32_uint32 a : int32 (uint32 a) = int32 a.
Proof.
  unfold int32, uint32. f_equal.
  rewrite Z.add_mod_idemp_l by lia. reflexivity.
Qed.

Lemma uint32_int32 a : uint32 (int32 a) = uint32 a.
Proof.
  unfold int32, uint32.
  rewrite <- Zminus_mod_idemp_l, Z.mod_mod by lia.
  rewrite Zminus_mod_idemp_l. f_equal. lia.
Qed.

(** ** Bytewise order *)

Lemma Compare_refl a : Bin.Compare a a = Eq.
Proof. induction a as [|x a IH]; cbn; [reflexivity|]. now rewrite Z.compare_refl. Qed.

Lemma Compare_eq a b : Bin.Compare a b = Eq -> a = b.
Proof.
  revert b. induction a as [|x a IH]; intros [|y b]; cbn; try discriminate; auto.
  destruct (Z.compare_spec x y) as [E|L|G]; try discriminate.
  intros H. subst. f_equal. now apply IH.
Qed.

Lemma Compare_antisym a b : Bin.Compare b a = CompOpp (Bin.Compare a b).
Proof.
  revert b. induction a as [|x a IH]; intros [|y b]; cbn; auto.
  rewrite (Z.compare_antisym x y).
  destruct (x ?= y); cbn; auto.
Qed.

Lemma keyLt_trans a b c : keyLt a b -> keyLt b c -> keyLt a c.
Proof.
  unfold keyLt. revert b c.
  induction a as [|x a IH]; intros [|y b] [|z c]; cbn; try discriminate; auto.
  destruct (Z.compare_spec x y) as [E1|L1|G1], (Z.compare_spec y z) as [E2|L2|G2];
    try discriminate; intros H1 H2.
  - subst. rewrite Z.compare_refl. eauto.
  - subst. now apply Z.compare_lt_iff in L2 as ->.
  - subst. now apply Z.compare_lt_iff in L1 as ->.
  - assert (x < z) as ->%Z.compare_lt_iff by lia. reflexivity.
Qed.

Lemma keyLt_irrefl a : ~ keyLt a a.
Proof. unfold keyLt. now rewrite Compare_refl. Qed.

(** Four bytes compare like the number they spell. *)
Lemma Compare_Uint32 a3 a2 a1 a0 c3 c2 c1 c0 r1 r2 :
  Bin.is_byte a3 -> Bin.is_byte a2 -> Bin.is_byte a1 -> Bin.is_byte a0 ->
  Bin.is_byte c3 -> Bin.is_byte c2 -> Bin.is_byte c1 -> Bin.is_byte c0 ->
  Bin.Compare (a3 :: a2 :: a1 :: a0 :: r1) (c3 :: c2 :: c1 :: c0 :: r2) =
  match Bin.Uint32 [a3; a2; a1; a0] ?= Bin.Uint32 [c3; c2; c1; c0] with
  | Eq => Bin.Compare r1 r2
  | c => c
  end.
Proof.
  unfold Bin.is_byte. intros. cbn [Bin.Compare Bin.Uint32].
  destruct (Z.compare_spec a3 c3) as [E3|L3|G3];
    [destruct (Z.compare_spec a2 c2) as [E2|L2|G2];
       [destruct (Z.compare_spec a1 c1) as [E1|L1|G1];
          [destruct (Z.compare_spec a0 c0) as [E0|L0|G0]| |]| |]| |].
  all: match goal with
       | |- Bin.Compare _ _ = _ =>
           subst; now rewrite Z.compare_refl
       | |- Lt = _ =>
           match goal with
           | |- context [?u ?= ?v] =>
               let E := fresh in
               assert (E : (u ?= v) = Lt) by (apply Z.compare_lt_iff; lia);
               rewrite E; reflexivity
           end
       | |- Gt = _ =>
           match goal with
           | |- context [?u ?= ?v] =>
               let E := fresh in
               assert (E : (u ?= v) = Gt) by (apply Z.compare_gt_iff; lia);
               rewrite E; reflexivity
           end
       end.
Qed.

Lemma Compare_PutUint32 u v r1 r2 :
  is_uint32 u -> is_uint32 v ->
  Bin.Compare (Bin.PutUint32 u ++ r1) (Bin.PutUint32 v ++ r2) =
  match u ?= v with
  | Eq => Bin.Compare r1 r2
  | c => c
  end.
Proof.
  intros Hu Hv.
  pose proof (Uint32_PutUint32 u [] Hu) as Eu.
  pose proof (Uint32_PutUint32 v [] Hv) as Ev.
  pose proof (PutUint32_bytes u) as Bu. pose proof (PutUint32_bytes v) as Bv.
  rewrite app_nil_r in Eu, Ev. unfold Bin.PutUint32 in *.
  repeat match goal with H : Forall _ (_ :: _) |- _ => inversion_clear H end.
  cbn [app]. rewrite Compare_Uint32 by assumption. now rewrite Eu, Ev.
Qed.

(** A key is not above a key that dominates it byte by byte. *)
Lemma Compare_le a b :
  Forall2 Z.le a b -> Bin.Compare a b <> Gt.
Proof.
  induction 1 as [|x y a b Hxy _ IH]; cbn; [discriminate|].
  destruct (Z.compare_spec x y) as [E|L|G]; [assumption | discriminate | lia].
Qed.

(** ** The store *)

Lemma put_In k s x : In x (storage.put k s) <-> x = k \/ In x s.
Proof.
  induction s as [|k' s IH]; cbn; [intuition|].
  destruct (Bin.Compare k k') eqn:E; cbn.
  - apply Compare_eq in E. subst. intuition.
  - intuition.
  - rewrite IH. intuition.
Qed.

Lemma put_sorted k s :
  StronglySorted keyLt s -> StronglySorted keyLt (storage.put k s).
Proof.
  induction 1 as [|k' s Hs IH Hk']; cbn; [repeat constructor|].
  destruct (Bin.Compare k k') eqn:E.
  - apply Compare_eq in E. subst. now constructor.
  - constructor; [now constructor|]. constructor; [exact E|].
    eapply Forall_impl; [exact Hk'|]. intros x Hx. now apply keyLt_trans with k'.
  - constructor; [assumption|].
    apply List.Forall_forall. intros x [->|Hx]%put_In.
    + unfold keyLt. now rewrite Compare_antisym, E.
    + rewrite List.Forall_forall in Hk'. now apply Hk'.
Qed.

Lemma Commit_app b1 b2 s :
  storage.Commit (b1 ++ b2) s = storage.Commit b2 (storage.Commit b1 s).
Proof. unfold storage.Commit. apply fold_left_app. Qed.

Lemma Commit_In b s x : In x (storage.Commit b s) <-> In x b \/ In x s.
Proof.
  revert s. induction b as [|k b IH]; intros s; cbn; [intuition|].
  change (In x (storage.Commit b (storage.put k s)) <-> (k = x \/ In x b) \/ In x s).
  rewrite IH, put_In. intuition.
Qed.

Lemma Commit_sorted b s :
  StronglySorted keyLt s -> StronglySorted keyLt (storage.Commit b s).
Proof.
  revert s. induction b as [|k b IH]; intros s Hs; cbn; [assumption|].
  apply IH. now apply put_sorted.
Qed.

(** ** [Put] *)

Lemma putLoop_spec spans : forall i d batch s,
  (Z.rem i BATCH_SIZE = 0 -> batch = []) ->
  exists batch' s',
    putLoop i spans d batch s = (fold_left extendZ spans d, batch', s') /\
    storage.Commit batch' s' = storage.Commit (batch ++ map key spans) s /\
    (Z.rem (i + Z.of_nat (length spans)) BATCH_SIZE = 0 -> batch' = []).
Proof.
  induction spans as [|sp spans IH]; intros i d batch s Hb.
  - exists batch, s. cbn [putLoop fold_left map length]. rewrite app_nil_r.
    replace (i + Z.of_nat 0) with i by lia. auto.
  - cbn [putLoop fold_left map]. fold (extendZ d sp). fold (key sp).
    replace (i + Z.of_nat (length (sp :: spans)))
      with (i + 1 + Z.of_nat (length spans)) by (cbn [length]; lia).
    destruct (Z.rem (i + 1) BATCH_SIZE =? 0) eqn:E.
    + destruct (IH (i + 1) (extendZ d sp) storage.NewBatch
                  (storage.Commit (storage.batchPut (key sp) batch) s))
        as (batch' & s' & H1 & H2 & H3); [reflexivity|].
      exists batch', s'. split; [exact H1|]. split; [|exact H3].
      rewrite H2. unfold storage.NewBatch, storage.batchPut. cbn [app].
      now rewrite <- Commit_app, <- app_assoc.
    + destruct (IH (i + 1) (extendZ d sp) (storage.batchPut (key sp) batch) s)
        as (batch' & s' & H1 & H2 & H3).
      { intros F. apply Z.eqb_neq in E. contradiction. }
      exists batch', s'. split; [exact H1|]. split; [|exact H3].
      rewrite H2. unfold storage.batchPut. now rewrite <- app_assoc.
Qed.

Lemma Put_Spans sv spans :
  batcher sv = true ->
  Put sv (Spans spans) =
  (None, {| data := fold_left extendZ spans (data sv);
            db := storage.Commit (map key spans) (db sv);
            batcher := true;
            savedRepo := Some (fold_left extendZ spans (data sv)) |}).
Proof.
  intros Hb. unfold Put. rewrite Hb. cbn [negb].
  destruct (putLoop_spec spans 0 (data sv) storage.NewBatch (db sv))
    as (batch' & s' & H1 & H2 & H3); [reflexivity|].
  rewrite H1. f_equal. f_equal.
  unfold storage.NewBatch in H2. cbn [app] in H2.
  destruct (Z.rem (Z.of_nat (length spans)) BATCH_SIZE =? 0) eqn:E; cbn [negb].
  - apply Z.eqb_eq in E. rewrite H3 in H2 by exact E. exact H2.
  - exact H2.
Qed.

(** ** [getROI] reads back what [Put] wrote *)

Lemma spanIndex_wf t : wf_tuple t -> wf_indexRLE (spanIndex t).
Proof.
  intros (Hz & Hy & Hx0 & _). unfold wf_indexRLE, spanIndex; cbn.
  repeat split; try apply Hz; try apply Hy; try apply Hx0; apply uint32_range.
Qed.

Lemma keyTuple_key t : wf_tuple t -> keyTuple (key t) = t.
Proof.
  intros Hwf. unfold keyTuple, key.
  rewrite IndexFromBytes_Bytes by now apply spanIndex_wf.
  destruct t as [z y x0 x1]. destruct Hwf as (_ & _ & _ & Hx1). cbn in *.
  f_equal.
  rewrite int32_uint32, int32_sub_l.
  set (w := int32 (int32 (int32 (x1 - x0) + 1))).
  replace (x0 + w - 1) with (x0 - 1 + w) by lia. subst w.
  rewrite !int32_add_r.
  replace (x0 - 1 + (int32 (x1 - x0) + 1)) with (x0 + int32 (x1 - x0)) by lia.
  rewrite int32_add_r. replace (x0 + (x1 - x0)) with x1 by lia.
  now apply int32_id.
Qed.

Lemma Bytes_minIndexRLE : Bytes minIndexRLE = repeat 0 16.
Proof. reflexivity. Qed.

Lemma Bytes_maxIndexRLE : Bytes maxIndexRLE = repeat 255 16.
Proof. reflexivity. Qed.

Lemma Bytes_inRange i :
  storage.inRange (Bytes minIndexRLE) (Bytes maxIndexRLE) (Bytes i) = true.
Proof.
  unfold storage.inRange.
  assert (H1 : Bin.Compare (Bytes minIndexRLE) (Bytes i) <> Gt).
  { rewrite Bytes_minIndexRLE. apply Compare_le.
    unfold Bytes, Dvid.IndexZYX_Bytes, Dvid.coordBytes, Bin.PutUint32. cbn [app repeat].
    repeat constructor; apply Z.mod_pos_bound; lia. }
  assert (H2 : Bin.Compare (Bytes i) (Bytes maxIndexRLE) <> Gt).
  { rewrite Bytes_maxIndexRLE. apply Compare_le.
    unfold Bytes, Dvid.IndexZYX_Bytes, Dvid.coordBytes, Bin.PutUint32. cbn [app repeat].
    repeat constructor;
      match goal with |- ?a mod 256 <= _ =>
        pose proof (Z.mod_pos_bound a 256 ltac:(lia)); lia end. }
  destruct (Bin.Compare (Bytes minIndexRLE) (Bytes i)),
           (Bin.Compare (Bytes i) (Bytes maxIndexRLE)); congruence.
Qed.

Lemma getROI_Bytes s :
  Forall (fun k => exists i, k = Bytes i) s -> getROI s = map keyTuple s.
Proof.
  unfold getROI, storage.ProcessRange, storage.Store.
  induction 1 as [|k s [i ->] _ IH]; [reflexivity|].
  rewrite filter_cons_True by apply Bytes_inRange.
  cbn [map]. now rewrite IH.
Qed.

(** Keys are ordered like (z, y, x0, span). *)
Lemma keyLt_leZYX0 a b :
  wf_tuple a -> wf_tuple b -> keyLt (key a) (key b) -> leZYX0 a b.
Proof.
  intros (Hz1 & Hy1 & Hx1 & _) (Hz2 & Hy2 & Hx2 & _).
  unfold keyLt, key, Bytes, Dvid.IndexZYX_Bytes, Dvid.coordBytes, spanIndex, leZYX0.
  cbn [start span p0 p1 p2]. rewrite <- !app_assoc.
  unfold is_int32, math.MinInt32, math.MaxInt32 in *.
  assert (U : forall v, -2147483648 <= v <= 2147483647 ->
                        is_uint32 (v - -2147483648) /\
                        uint32 (v - -2147483648) = v - -2147483648).
  { intros v Hv. assert (is_uint32 (v - -2147483648)) by (unfold is_uint32; lia).
    split; [assumption | now apply uint32_id]. }
  destruct (U _ Hz1) as [? ->], (U _ Hz2) as [? ->], (U _ Hy1) as [? ->],
           (U _ Hy2) as [? ->], (U _ Hx1) as [? ->], (U _ Hx2) as [? ->].
  rewrite !Compare_PutUint32 by (assumption || apply uint32_range).
  destruct (Z.compare_spec (t0 a - -2147483648) (t0 b - -2147483648));
    [|left; lia|discriminate].
  destruct (Z.compare_spec (t1 a - -2147483648) (t1 b - -2147483648));
    [|right; split; [lia|left; lia]|discriminate].
  destruct (Z.compare_spec (t2 a - -2147483648) (t2 b - -2147483648));
    [|right; split; [lia|right; split; lia]|discriminate].
  intros _. right; split; [lia|right; split; lia].
Qed.

Lemma posts_spec bodies : forall sv,
  batcher sv = true ->
  data (posts sv bodies) = fold_left extendZ (postedSpans bodies) (data sv) /\
  db (posts sv bodies) = storage.Commit (map key (postedSpans bodies)) (db sv) /\
  batcher (posts sv bodies) = true.
Proof.
  induction bodies as [|body bodies IH]; intros sv Hb; [now cbn|].
  unfold posts. cbn [foldl]. fold (posts (snd (Put sv body)) bodies).
  destruct body as [|spans].
  - cbn [Put snd postedSpans flat_map app]. fold (postedSpans bodies). now apply IH.
  - rewrite (Put_Spans sv spans Hb). cbn [snd postedSpans flat_map].
    fold (postedSpans bodies).
    rewrite map_app, Commit_app, fold_left_app. now apply IH.
Qed.

Lemma StronglySorted_map {A B} (R : A -> A -> Prop) (R' : B -> B -> Prop)
    (f : A -> B) l :
  (forall x y, In x l -> In y l -> R x y -> R' (f x) (f y)) ->
  StronglySorted R l -> StronglySorted R' (map f l).
Proof.
  intros HR Hs. induction Hs as [|x l Hs IH Hx]; cbn; constructor.
  - apply IH. intros a b Ha Hb. apply HR; now right.
  - apply List.Forall_forall. intros y (a & <- & Ha)%in_map_iff.
    rewrite List.Forall_forall in Hx. apply HR; [now left | now right | now apply Hx].
Qed.

Lemma StronglySorted_NoDup {A} (R : A -> A -> Prop) l :
  (forall x, ~ R x x) -> StronglySorted R l -> NoDup l.
Proof.
  intros Hirr. induction 1 as [|x l Hs IH Hx]; constructor; [|assumption].
  rewrite List.Forall_forall in Hx. rewrite list_elem_of_In.
  intros Hin. exact (Hirr x (Hx x Hin)).
Qed.

Lemma NoDup_map_on {A B} (f : A -> B) l :
  (forall x y, In x l -> In y l -> f x = f y -> x = y) ->
  NoDup l -> NoDup (map f l).
Proof.
  intros Hinj. induction 1 as [|x l Hx Hl IH]; cbn; constructor.
  - rewrite list_elem_of_In. intros (y & E & Hy)%in_map_iff.
    apply Hinj in E; [|now right|now left].
    subst. now apply Hx, list_elem_of_In.
  - apply IH. intros a b Ha Hb. apply Hinj; now right.
Qed.

(** What [GET /roi] returns after a sequence of [POST /roi] on a new
    instance: the spans posted, none merged and none twice, in key order. *)
Lemma getROI_posts blockSize bodies :
  Forall wf_tuple (postedSpans bodies) ->
  let spans := getROI (db (posts (newServer blockSize) bodies)) in
  StronglySorted leZYX0 spans /\ NoDup spans /\
  forall t, In t spans <-> In t (postedSpans bodies).
Proof.
  intros Hwf.
  destruct (posts_spec bodies (newServer blockSize) eq_refl) as (_ & Hdb & _).
  cbn zeta. rewrite Hdb. cbn [newServer db].
  set (ts := postedSpans bodies) in *. set (s := storage.Commit (map key ts) []).
  rewrite List.Forall_forall in Hwf.
  assert (Hin : forall k, In k s <-> exists t, In t ts /\ k = key t).
  { intros k. unfold s. rewrite Commit_In, in_map_iff. cbn [In].
    split; [intros [(t & <- & Ht)|[]]; eauto | intros (t & Ht & ->); eauto]. }
  assert (Hs : StronglySorted keyLt s)
    by (apply Commit_sorted; constructor).
  rewrite getROI_Bytes.
  2:{ apply List.Forall_forall. intros k (t & _ & ->)%Hin. now eexists. }
  split; [|split].
  - eapply StronglySorted_map; [|exact Hs].
    intros k1 k2 (a & Ha & ->)%Hin (b & Hb & ->)%Hin Hlt.
    rewrite !keyTuple_key by auto. apply keyLt_leZYX0; auto.
  - apply NoDup_map_on; [|eapply StronglySorted_NoDup; [apply keyLt_irrefl|exact Hs]].
    intros k1 k2 (a & Ha & ->)%Hin (b & Hb & ->)%Hin.
    rewrite !keyTuple_key by auto. now intros ->.
  - intros t. rewrite in_map_iff. split.
    + intros (k & <- & (a & Ha & ->)%Hin). now rewrite keyTuple_key by auto.
    + intros Ht. exists (key t). split; [now apply keyTuple_key, Hwf|].
      apply Hin. eauto.
Qed.

(** ** Point queries (C1) *)

(** C1.  The specification says that [POST /ptquery] answers, for the
    i-th point of the request, whether its block lies in some span of the
    ROI, in the order of the request.  [PointQuery] sorts the points and
    returns the answers in sorted order: on the ROI [[0,0,0,1]] with 32^3
    blocks, the points (0,0,32), (0,0,0) are answered [true, false] although
    only the second point lies in the ROI.  Moreover [tuple.less] skips a
    span whose last block is the queried block: the point (32,0,0), whose
    block (1,0,0) ends the span, is answered [false]. *)
Theorem PointQuery_answers_misaligned :
  let sv := snd (Put (newServer None) (Spans [mkTuple 0 0 0 1])) in
  let P := [mkPoint3d 0 0 32; mkPoint3d 0 0 0] in
  getROI (db sv) = [mkTuple 0 0 0 1] /\
  PointQuery sv (Some P) = Some [true; false] /\
  map (blockInROI (data sv) (getROI (db sv))) P = [false; true] /\
  PointQuery sv (Some [mkPoint3d 32 0 0]) = Some [false] /\
  blockInROI (data sv) (getROI (db sv)) (mkPoint3d 32 0 0) = true.
Proof. vm_compute. repeat split. Qed.

(** ** Canonical form (C2) *)

(** C2, as stated, fails: [Put] neither sorts nor merges.  Two tuples of
    one row that start at the same block and overlap are both returned by
    [GET /roi], so the result is neither strictly ascending in (z, y, x0)
    nor free of overlapping spans. *)
Lemma getROI_not_canonical :
  let sv := snd (Put (newServer None) (Spans [mkTuple 0 0 0 5; mkTuple 0 0 0 8])) in
  getROI (db sv) = [mkTuple 0 0 0 5; mkTuple 0 0 0 8] /\
  ~ StronglySorted ltZYX0 (getROI (db sv)) /\
  touchOrOverlap (mkTuple 0 0 0 5) (mkTuple 0 0 0 8) /\
  ~ canonical (getROI (db sv)).
Proof.
  cbn zeta.
  assert (E : getROI (db (snd (Put (newServer None)
                 (Spans [mkTuple 0 0 0 5; mkTuple 0 0 0 8])))) =
              [mkTuple 0 0 0 5; mkTuple 0 0 0 8]) by (vm_compute; reflexivity).
  rewrite E.
  assert (N : ~ StronglySorted ltZYX0 [mkTuple 0 0 0 5; mkTuple 0 0 0 8]).
  { intros H. inversion H as [|? ? _ F]; subst.
    inversion F as [|? ? L _]; subst. unfold ltZYX0 in L; cbn in L. lia. }
  split; [reflexivity|]. split; [exact N|].
  split; [unfold touchOrOverlap; cbn; lia|].
  intros [H _]. exact (N H).
Qed.

(** C2, amended.  After a [POST /roi] of well-formed tuples to a new
    instance, [GET /roi] returns exactly the tuples of the body, each as it
    was posted and none twice, in ascending -- not necessarily strictly
    ascending -- (z, y, x0) order. *)
Theorem getROI_after_Put (blockSize : option Point3d) (spans : list tuple) :
  Forall wf_tuple spans ->
  let sv := snd (Put (newServer blockSize) (Spans spans)) in
  StronglySorted leZYX0 (getROI (db sv)) /\
  NoDup (getROI (db sv)) /\
  forall t, In t (getROI (db sv)) <-> In t spans.
Proof.
  intros Hwf.
  pose proof (getROI_posts blockSize [Spans spans]) as H.
  unfold posts, postedSpans in H. cbn [foldl flat_map] in H.
  rewrite app_nil_r in H. exact (H Hwf).
Qed.

Lemma getROI_after_Put_witness :
  let spans := [mkTuple 0 0 3 8; mkTuple 0 0 0 5; mkTuple (-1) 2 0 0] in
  let sv := snd (Put (newServer None) (Spans spans)) in
  StronglySorted leZYX0 (getROI (db sv)) /\
  NoDup (getROI (db sv)) /\
  forall t, In t (getROI (db sv)) <-> In t spans.
Proof.
  apply (getROI_after_Put None [mkTuple 0 0 3 8; mkTuple 0 0 0 5; mkTuple (-1) 2 0 0]).
  repeat constructor; cbn; unfold math.MinInt32, math.MaxInt32; lia.
Defined.

(** ** Overwrite (C3) *)

(** C3.  The specification says a [POST /roi] replaces the ROI.  [Put]
    deletes nothing (its "Delete the old key/values" step is a TODO): after
    a first POST of [[0,0,0,1]] and a second POST of [[1,0,0,1]], the span
    of the first POST is still returned by [GET /roi]. *)
Theorem Put_keeps_old_spans :
  let sv1 := snd (Put (newServer None) (Spans [mkTuple 0 0 0 1])) in
  let sv2 := snd (Put sv1 (Spans [mkTuple 1 0 0 1])) in
  fst (Put sv1 (Spans [mkTuple 1 0 0 1])) = None /\
  getROI (db sv2) = [mkTuple 0 0 0 1; mkTuple 1 0 0 1] /\
  In (mkTuple 0 0 0 1) (getROI (db sv2)) /\
  ~ In (mkTuple 0 0 0 1) [mkTuple 1 0 0 1].
Proof.
  vm_compute. repeat split; auto.
  intros [H|[]]. discriminate H.
Qed.

(** ** Extents (C8) *)

Lemma extendZ_fold ts : forall d,
  let d' := fold_left extendZ ts d in
  (MinZ d' = MinZ d \/ In (MinZ d') (map t0 ts)) /\
  MinZ d' <= MinZ d /\ Forall (fun z => MinZ d' <= z) (map t0 ts) /\
  (MaxZ d' = MaxZ d \/ In (MaxZ d') (map t0 ts)) /\
  MaxZ d <= MaxZ d' /\ Forall (fun z => z <= MaxZ d') (map t0 ts).
Proof.
  induction ts as [|t ts IH]; intros d; cbn zeta.
  - cbn. repeat split; auto; lia.
  - cbn [fold_left map].
    destruct (IH (extendZ d t)) as (H1 & H2 & H3 & H4 & H5 & H6).
    set (d' := fold_left extendZ ts (extendZ d t)) in *.
    assert (Hm : (MinZ (extendZ d t) = MinZ d /\ MinZ d <= t0 t) \/
                 (MinZ (extendZ d t) = t0 t /\ t0 t < MinZ d)).
    { unfold extendZ. destruct (Z.ltb_spec (t0 t) (MinZ d));
        cbn [MinZ MaxZ]; match goal with |- context [if ?c then _ else _] =>
          destruct c end; cbn; lia. }
    assert (HM : (MaxZ (extendZ d t) = MaxZ d /\ t0 t <= MaxZ d) \/
                 (MaxZ (extendZ d t) = t0 t /\ MaxZ d < t0 t)).
    { unfold extendZ. destruct (Z.ltb_spec (t0 t) (MinZ d)); cbn [MinZ MaxZ];
        match goal with |- context [?a >? ?b] =>
          destruct (Z.gtb_spec a b) end; cbn; lia. }
    repeat split.
    + destruct H1 as [H1|H1]; [|right; now right].
      destruct Hm as [[E _]|[E _]]; rewrite H1, E; [now left|right; now left].
    + lia.
    + constructor; [lia|assumption].
    + destruct H4 as [H4|H4]; [|right; now right].
      destruct HM as [[E _]|[E _]]; rewrite H4, E; [now left|right; now left].
    + lia.
    + constructor; [lia|assumption].
Qed.

(** C8.  Starting from a new instance, after any sequence of [POST /roi]
    requests that inserted at least one span, [MinZ] is the least and
    [MaxZ] the greatest block Z of the spans inserted; and every accepted
    [POST /roi] leaves the resulting properties saved with the repo. *)
Theorem MinZ_MaxZ_after_posts (blockSize : option Point3d) (bodies : list jsonSpans) :
  let sv := posts (newServer blockSize) bodies in
  let zs := map t0 (postedSpans bodies) in
  Forall is_int32 zs -> zs <> [] ->
  (In (MinZ (data sv)) zs /\ Forall (fun z => MinZ (data sv) <= z) zs) /\
  (In (MaxZ (data sv)) zs /\ Forall (fun z => z <= MaxZ (data sv)) zs) /\
  (forall sv0 body, fst (Put sv0 body) = None ->
     savedRepo (snd (Put sv0 body)) = Some (data (snd (Put sv0 body)))).
Proof.
  cbn zeta. intros Hz Hne.
  destruct (posts_spec bodies (newServer blockSize) eq_refl) as (Hd & _ & _).
  rewrite Hd. cbn [newServer data].
  set (d0 := NewDataService blockSize).
  destruct (extendZ_fold (postedSpans bodies) d0) as (H1 & H2 & H3 & H4 & H5 & H6).
  set (d' := fold_left extendZ (postedSpans bodies) d0) in *.
  assert (E0 : MinZ d0 = math.MaxInt32 /\ MaxZ d0 = math.MinInt32) by (now cbn).
  destruct E0 as [Emin Emax].
  destruct (map t0 (postedSpans bodies)) as [|z zs] eqn:Ezs; [congruence|].
  inversion Hz as [|? ? Hz0 _]; subst.
  inversion H3 as [|? ? Hm0 _]; subst. inversion H6 as [|? ? HM0 _]; subst.
  unfold is_int32 in Hz0.
  repeat split; try assumption.
  - destruct H1 as [H1|H1]; [|assumption]. left. lia.
  - destruct H4 as [H4|H4]; [|assumption]. left. lia.
  - intros sv0 body. destruct body as [|spans]; [discriminate|].
    unfold Put. destruct (batcher sv0); [|discriminate]. cbn [negb].
    destruct (putLoop 0 spans (data sv0) storage.NewBatch (db sv0)) as [[d b] s].
    reflexivity.
Qed.

Lemma MinZ_MaxZ_after_posts_witness :
  let bodies := [Spans [mkTuple 3 0 0 1; mkTuple (-2) 0 0 0]; BadJSON; Spans [mkTuple 7 1 1 1]] in
  let sv := posts (newServer None) bodies in
  let zs := map t0 (postedSpans bodies) in
  (In (MinZ (data sv)) zs /\ Forall (fun z => MinZ (data sv) <= z) zs) /\
  (In (MaxZ (data sv)) zs /\ Forall (fun z => z <= MaxZ (data sv)) zs) /\
  (forall sv0 body, fst (Put sv0 body) = None ->
     savedRepo (snd (Put sv0 body)) = Some (data (snd (Put sv0 body)))).
Proof.
  apply (MinZ_MaxZ_after_posts None
           [Spans [mkTuple 3 0 0 1; mkTuple (-2) 0 0 0]; BadJSON; Spans [mkTuple 7 1 1 1]]).
  - repeat constructor; cbn; unfold math.MinInt32, math.MaxInt32; lia.
  - discriminate.
Defined.

(** ** Partitioning: edge cases (C4) *)

(** C4.  On an ROI without blocks [Partition] returns, for every batch
    size B >= 1, no subvolume and zero counters.  On an ROI of exactly one
    block it returns one subvolume for B = 1 and B = 2, but for B >= 3 the
    block count 1 is below the merge threshold B^3/10, and the merge
    indexes the last element of the still empty subvolume list: the
    handler panics (B = 3 and B = 8 shown). *)
Theorem Partition_empty_and_single_block (fuel : nat) (sv : Server) (batchsize : Z) :
  db sv = [] -> 1 <= batchsize ->
  let single := snd (Put (newServer None) (Spans [mkTuple 0 0 0 0])) in
  Partition fuel sv batchsize = Ok (mkSubvolumesT 0 0 0 [], []) /\
  getROI (db single) = [mkTuple 0 0 0 0] /\
  (exists s, Partition (3 + fuel) single 1 = Ok (s, [(0, 0)]) /\
             NumSubvolumes s = 1 /\ length (Subvolumes s) = 1%nat) /\
  (exists s, Partition (3 + fuel) single 2 = Ok (s, [(0, 1)]) /\
             NumSubvolumes s = 1 /\ length (Subvolumes s) = 1%nat) /\
  Partition (2 + fuel) single 3 = Panic "index out of range" /\
  Partition (2 + fuel) single 8 = Panic "index out of range".
Proof.
  intros Hdb HB. cbn zeta. split.
  - unfold Partition, firstLayer, rem. rewrite Hdb.
    destruct (Z.eqb_spec batchsize 0) as [E|_]; [lia|]. reflexivity.
  - split; [vm_compute; reflexivity|].
    split; [eexists; vm_compute; repeat split|].
    split; [eexists; vm_compute; repeat split|].
    split; vm_compute; reflexivity.
Qed.

Lemma Partition_empty_and_single_block_witness :
  let single := snd (Put (newServer None) (Spans [mkTuple 0 0 0 0])) in
  Partition 5 (newServer None) 8 = Ok (mkSubvolumesT 0 0 0 [], []) /\
  getROI (db single) = [mkTuple 0 0 0 0] /\
  (exists s, Partition (3 + 5) single 1 = Ok (s, [(0, 0)]) /\
             NumSubvolumes s = 1 /\ length (Subvolumes s) = 1%nat) /\
  (exists s, Partition (3 + 5) single 2 = Ok (s, [(0, 1)]) /\
             NumSubvolumes s = 1 /\ length (Subvolumes s) = 1%nat) /\
  Partition (2 + 5) single 3 = Panic "index out of range" /\
  Partition (2 + 5) single 8 = Panic "index out of range".
Proof.
  apply (Partition_empty_and_single_block 5 (newServer None) 8); [reflexivity | lia].
Defined.

(** ** Partitioning: the merge rule (C5) *)

(** C5.  The specification gives a merged subvolume the maximum voxel of
    its maximum block as [MaxCorner], as for a new subvolume.  The merge
    branch of [addSubvolumes] uses [MinPoint] where the other branch uses
    [MaxPoint]: on the ROI [[0,0,0,2],[0,0,5,5]] with B = 3 (threshold 2)
    the column X 0..2 (3 active blocks) is emitted with [MaxCorner]
    (95,127,95), the column X 3..5 (1 active block) is merged into it, and
    the merged subvolume gets [MaxCorner] (160,96,64), the minimum voxel of
    block (5,3,2), instead of its maximum voxel (191,127,95). *)
Theorem addSubvolumes_merge_MaxCorner (fuel : nat) :
  let sv := snd (Put (newServer None) (Spans [mkTuple 0 0 0 2; mkTuple 0 0 5 5])) in
  let maxCorner := mkPoint3d 5 3 2 in
  Partition (4 + fuel) sv 3 =
    Ok ({| NumTotalBlocks := 72; NumActiveBlocks := 4; NumSubvolumes := 1;
           Subvolumes := [ {| MinCorner := mkPoint3d 0 0 0;
                              MaxCorner := mkPoint3d 160 96 64;
                              TotalBlocks := 72; ActiveBlocks := 4 |} ] |},
        [(0, 2)]) /\
  Dvid.MinPoint maxCorner (BlockSize (data sv)) = mkPoint3d 160 96 64 /\
  Dvid.MaxPoint maxCorner (BlockSize (data sv)) = mkPoint3d 191 127 95 /\
  addColumn (data sv) (mkSubvolumesT 0 0 0 []) 2 (mkPoint3d 0 0 0) (mkPoint3d 2 3 2) 36 3 =
    Ok ({| NumTotalBlocks := 36; NumActiveBlocks := 3; NumSubvolumes := 0;
           Subvolumes := [ {| MinCorner := mkPoint3d 0 0 0;
                              MaxCorner := mkPoint3d 95 127 95;
                              TotalBlocks := 36; ActiveBlocks := 3 |} ] |}).
Proof. vm_compute. repeat split. Qed.

(** ** Partitioning: the layers (C6) *)






(** ** The batch size of [GET /partition] (C10) *)

Lemma digits_allDigits s : forall acc n,
  Str.digits acc s = Some n -> Str.allDigits s.
Proof.
  unfold Str.allDigits.
  induction s as [|c s IH]; intros acc n; cbn; [constructor|].
  destruct (Str.isDigit c) eqn:E; [|discriminate].
  intros H. constructor; [exact E | eapply IH, H].
Qed.

Lemma Atoi_decimalInteger s v : Str.Atoi s = inl v -> Str.decimalInteger s.
Proof.
  unfold Str.Atoi, Str.decimalInteger.
  destruct s as [|c s]; [discriminate|].
  destruct (Ascii.eqb_spec c "+") as [->|Hp];
    [|destruct (Ascii.eqb_spec c "-") as [->|Hm]].
  - destruct s as [|c' s']; [discriminate|].
    destruct (Str.digits 0 (String c' s')) as [n|] eqn:E; [|discriminate].
    intros _. exists "+"%string, (String c' s').
    repeat split; [auto | discriminate | eapply digits_allDigits, E].
  - destruct s as [|c' s']; [discriminate|].
    destruct (Str.digits 0 (String c' s')) as [n|] eqn:E; [|discriminate].
    intros _. exists "-"%string, (String c' s').
    repeat split; [auto | discriminate | eapply digits_allDigits, E].
  - destruct (Str.digits 0 (String c s)) as [n|] eqn:E; [|discriminate].
    intros _. exists ""%string, (String c s).
    repeat split; [auto | discriminate | eapply digits_allDigits, E].
Qed.

(** C10.  A GET of the [partition] command whose query has no [batchsize]
    parameter, or one that is not a decimal integer, is answered with the
    400 of the [strconv.Atoi] error and leaves the instance as it was; no
    partition is computed and no default batch size is used, whatever the
    help text says. *)
Theorem partition_requires_batchsize (fuel : nat) (sv : Server)
    (versions : list Z) (r : Request) :
  (String.length WebAPIPath <= String.length (Path r))%nat ->
  urlParts (Path r) !! 3%nat = Some "partition"%string ->
  Str.ToLower (Method r) = "get"%string ->
  Query r !! "batchsize"%string = None \/
    ~ Str.decimalInteger (Get (Query r) "batchsize") ->
  exists e, ServeHTTP fuel sv (Some versions) r = (BadRequest (BatchsizeError e), sv).
Proof.
  intros Hlen Hcmd Hget Hq.
  assert (Hnd : ~ Str.decimalInteger (Get (Query r) "batchsize")).
  { destruct Hq as [Hq|Hq]; [|exact Hq].
    unfold Get. rewrite Hq. intros (sign & ds & E & _ & Hne & _).
    destruct sign; [|discriminate E].
    destruct ds; [now apply Hne | discriminate E]. }
  unfold ServeHTTP.
  destruct (Nat.ltb_spec (String.length (Path r)) (String.length WebAPIPath)) as [F|_];
    [lia|].
  rewrite Hcmd, Hget. cbn -[Str.Atoi Partition Get].
  destruct (Str.Atoi (Get (Query r) "batchsize")) as [v|e] eqn:E.
  - exfalso. apply Hnd. eapply Atoi_decimalInteger, E.
  - now exists e.
Qed.

Lemma partition_requires_batchsize_witness :
  let sv := snd (Put (newServer None) (Spans [mkTuple 0 0 0 2])) in
  exists e,
    ServeHTTP 10 sv (Some [1])
      (mkRequest "GET" "/api/node/3f8c/medulla/partition" ∅ BadJSON None) =
    (BadRequest (BatchsizeError e), sv).
Proof.
  apply (partition_requires_batchsize 10
           (snd (Put (newServer None) (Spans [mkTuple 0 0 0 2]))) [1]
           (mkRequest "GET" "/api/node/3f8c/medulla/partition" ∅ BadJSON None)).
  - cbn. lia.
  - reflexivity.
  - reflexivity.
  - left. reflexivity.
Defined.

(** ** Read-only mode (C9) *)

Lemma verbMatches_GET m :
  Str.ToLower m <> "get"%string -> Str.ToLower m <> "head"%string ->
  web.verbMatches web.GET m = false.
Proof.
  intros Hg Hh. unfold web.verbMatches.
  destruct (String.eqb_spec m "GET") as [->|_]; [now elim Hg|].
  destruct (String.eqb_spec m "HEAD") as [->|_]; [now elim Hh|].
  reflexivity.
Qed.

Lemma findRoute_skip rt rs m path :
  web.verbMatches (rverb rt) m = false ->
  findRoute (rt :: rs) m path = findRoute rs m path.
Proof.
  intros H. cbn [findRoute]. rewrite H.
  now destruct (web.matchPattern (rpattern rt) path).
Qed.

Lemma parse_repo :
  web.parse "/api/repo/:uuid/*" =
  web.mkPattern [web.Lit "api"; web.Lit "repo"; web.Param "uuid"] true.
Proof. reflexivity. Qed.

Lemma parse_node :
  web.parse "/api/node/:uuid/:dataname/:keyword" =
  web.mkPattern [web.Lit "api"; web.Lit "node"; web.Param "uuid";
                 web.Param "dataname"; web.Param "keyword"] false.
Proof. reflexivity. Qed.

Lemma parse_node_rest :
  web.parse "/api/node/:uuid/:dataname/:keyword/*" =
  web.mkPattern [web.Lit "api"; web.Lit "node"; web.Param "uuid";
                 web.Param "dataname"; web.Param "keyword"] true.
Proof. reflexivity. Qed.

Lemma matchSegs_Lit s ps w segs params :
  is_Some (web.matchSegs (web.Lit s :: ps) w segs params) ->
  exists rest, segs = s :: rest /\ is_Some (web.matchSegs ps w rest params).
Proof.
  destruct segs as [|x rest]; cbn [web.matchSegs]; [intros [? H]; discriminate H|].
  destruct (String.eqb_spec s x) as [->|_]; [eauto | intros [? H]; discriminate H].
Qed.

Lemma matchSegs_Param n ps w segs params :
  is_Some (web.matchSegs (web.Param n :: ps) w segs params) ->
  exists x rest, segs = x :: rest /\ x <> ""%string /\
                 is_Some (web.matchSegs ps w rest (<[n := x]> params)).
Proof.
  destruct segs as [|x rest]; cbn [web.matchSegs]; [intros [? H]; discriminate H|].
  destruct (String.eqb_spec x "") as [->|Hx]; [intros [? H]; discriminate H | eauto].
Qed.

Lemma inside_shape path :
  insideRepoOrNode path ->
  exists s2 s3 s4 rest,
    web.pathSegs path = Some ("api" :: s2 :: s3 :: s4 :: rest)%string /\
    (s2 = "repo" \/ s2 = "node")%string.
Proof.
  unfold insideRepoOrNode, web.matchPattern.
  rewrite parse_repo, parse_node, parse_node_rest. cbn [web.segs web.wildcard].
  destruct (web.pathSegs path) as [segs|]; [|intros [[? H]|[[? H]|[? H]]]; discriminate H].
  intros [H|[H|H]].
  - apply matchSegs_Lit in H as (r1 & -> & H).
    apply matchSegs_Lit in H as (r2 & -> & H).
    apply matchSegs_Param in H as (u & r3 & -> & _ & H).
    destruct r3 as [|x r3]; [destruct H as [? H]; discriminate H|]. eauto 10.
  - apply matchSegs_Lit in H as (r1 & -> & H).
    apply matchSegs_Lit in H as (r2 & -> & H).
    apply matchSegs_Param in H as (u & r3 & -> & _ & H).
    apply matchSegs_Param in H as (d & r4 & -> & _ & H). eauto 10.
  - apply matchSegs_Lit in H as (r1 & -> & H).
    apply matchSegs_Lit in H as (r2 & -> & H).
    apply matchSegs_Param in H as (u & r3 & -> & _ & H).
    apply matchSegs_Param in H as (d & r4 & -> & _ & H). eauto 10.
Qed.

Lemma inside_not_load path :
  insideRepoOrNode path -> web.matchPattern "/api/load" path = None.
Proof.
  intros (s2 & s3 & s4 & rest & E & Hs)%inside_shape.
  unfold web.matchPattern. rewrite E.
  destruct Hs as [-> | ->]; reflexivity.
Qed.

Lemma inside_any path :
  insideRepoOrNode path -> web.matchPattern "/*" path = Some ∅.
Proof.
  intros (s2 & s3 & s4 & rest & E & Hs)%inside_shape.
  unfold web.matchPattern. rewrite E. reflexivity.
Qed.


Lemma selector_refuses ds m c r :
  m = repoMux \/ m = instanceMux ->
  Str.ToLower (Method r) <> "get"%string ->
  Str.ToLower (Method r) <> "head"%string ->
  serveSub true ds m c r = Status400 ReadOnlyMode.
Proof.
  intros Hm Hg Hh.
  assert (E : forall h, repoSelectorFn true ds h c r = Status400 ReadOnlyMode).
  { intros h. unfold repoSelectorFn.
    destruct (String.eqb_spec (Str.ToLower (Method r)) "get") as [F|_]; [contradiction|].
    destruct (String.eqb_spec (Str.ToLower (Method r)) "head") as [F|_]; [contradiction|].
    reflexivity. }
  unfold serveSub, serveMux.
  destruct Hm as [-> | ->]; cbn [initRoutes uses foldr runMiddleware]; apply E.
Qed.

(** C9.  In read-only mode every request inside [/api/repo/...] or
    [/api/node/...] whose method is neither GET nor HEAD (compared, as
    [repoSelector] does, without regard to case) is answered by
    [repoSelector] with the 400 of the read-only refusal: no route handler
    and no data instance sees it.  And in read-only mode no mux has a route
    for [/api/repos], which [initRoutes] otherwise registers for POST. *)
Theorem readonly_refuses_writes (ds : Datastore) (r : Request) :
  Str.ToLower (Method r) <> "get"%string ->
  Str.ToLower (Method r) <> "head"%string ->
  insideRepoOrNode (Path r) ->
  serveHttp true ds r = Status400 ReadOnlyMode /\
  (forall m rt, In rt (routes (initRoutes true m)) ->
     rpattern rt <> "/api/repos"%string /\ rtarget rt <> Func reposPostHandler) /\
  In (mkRoute web.POST "/api/repos" (Func reposPostHandler))
     (routes (initRoutes false mainMux)).
Proof.
  intros Hg Hh Hin. split; [|split].
  - pose proof (verbMatches_GET _ Hg Hh) as HG.
    unfold serveHttp, serveMux. cbn [initRoutes uses routes foldr runMiddleware].
    unfold router at 1. cbn [routes findRoute rpattern rverb rtarget web.verbMatches].
    rewrite (inside_not_load _ Hin), (inside_any _ Hin).
    unfold serveMain, serveMux. cbn [initRoutes uses routes foldr runMiddleware negb app].
    unfold router at 1. cbn [routes].
    rewrite !findRoute_skip by exact HG.
    cbn [findRoute rpattern rverb rtarget web.verbMatches].
    destruct Hin as [[p Hp]|[[p Hp]|[p Hp]]].
    + rewrite Hp. now rewrite selector_refuses by auto.
    + rewrite Hp.
      destruct (web.matchPattern "/api/repo/:uuid/*" (Path r));
        now rewrite selector_refuses by auto.
    + rewrite Hp.
      destruct (web.matchPattern "/api/repo/:uuid/*" (Path r));
        [|destruct (web.matchPattern "/api/node/:uuid/:dataname/:keyword" (Path r))];
        now rewrite selector_refuses by auto.
  - intros m rt H.
    destruct m; cbn [initRoutes routes negb app In] in H;
      repeat (destruct H as [<-|H]; [split; discriminate|]); contradiction.
  - cbn. auto 20.
Qed.

Lemma readonly_refuses_writes_witness :
  let ds := mkDatastore (fun s => Some (s, 1)) (fun _ => Some 7)
              (fun _ => Some 1) (fun _ n => Some n) in
  let r := mkRequest "POST" "/api/repo/3f8c/lock" ∅ BadJSON None in
  serveHttp true ds r = Status400 ReadOnlyMode /\
  (forall m rt, In rt (routes (initRoutes true m)) ->
     rpattern rt <> "/api/repos"%string /\ rtarget rt <> Func reposPostHandler) /\
  In (mkRoute web.POST "/api/repos" (Func reposPostHandler))
     (routes (initRoutes false mainMux)).
Proof.
  apply (readonly_refuses_writes
           (mkDatastore (fun s => Some (s, 1)) (fun _ => Some 7)
              (fun _ => Some 1) (fun _ n => Some n))
           (mkRequest "POST" "/api/repo/3f8c/lock" ∅ BadJSON None)).
  - vm_compute. discriminate.
  - vm_compute. discriminate.
  - left. vm_compute. eexists. reflexivity.
Defined.

(** * Further properties of the code *)

(** ** [Put]: composition, idempotence, order of the body *)

Lemma extendZ_eq d t :
  extendZ d t =
  {| BlockSize := BlockSize d;
     MinZ := Z.min (MinZ d) (t0 t);
     MaxZ := Z.max (MaxZ d) (t0 t) |}.
Proof.
  destruct d as [bs mn mx]. unfold extendZ. cbn [BlockSize MinZ MaxZ].
  destruct (Z.ltb_spec (t0 t) mn); cbn [BlockSize MinZ MaxZ];
    match goal with |- context [?a >? ?b] => destruct (Z.gtb_spec a b) end;
    f_equal; lia.
Qed.

Lemma extendZ_fold_perm ts ts' :
  Permutation ts ts' -> forall d, fold_left extendZ ts d = fold_left extendZ ts' d.
Proof.
  induction 1 as [|x l l' _ IH|x y l|l l' l'' _ IH1 _ IH2]; intros d; cbn [fold_left].
  - reflexivity.
  - apply IH.
  - f_equal. rewrite !extendZ_eq. cbn [BlockSize MinZ MaxZ]. f_equal; lia.
  - now rewrite IH1.
Qed.

Lemma extendZ_fold_fix ts : forall d,
  Forall (fun t => MinZ d <= t0 t <= MaxZ d) ts -> fold_left extendZ ts d = d.
Proof.
  induction ts as [|t ts IH]; intros d H; [reflexivity|].
  inversion H as [|? ? Ht Hts]; subst. cbn [fold_left].
  assert (E : extendZ d t = d).
  { rewrite extendZ_eq. destruct d as [bs mn mx]. cbn in *. f_equal; lia. }
  rewrite E. now apply IH.
Qed.

Lemma sorted_ext l1 : forall l2,
  StronglySorted keyLt l1 -> StronglySorted keyLt l2 ->
  (forall k, In k l1 <-> In k l2) -> l1 = l2.
Proof.
  induction l1 as [|x l1 IH]; intros l2 H1 H2 Hin.
  - destruct l2 as [|y l2]; [reflexivity|]. destruct (proj2 (Hin y)); now left.
  - destruct l2 as [|y l2]; [destruct (proj1 (Hin x)); now left|].
    inversion H1 as [|? ? S1 F1]; subst. inversion H2 as [|? ? S2 F2]; subst.
    rewrite List.Forall_forall in F1, F2.
    assert (E : x = y).
    { destruct (proj1 (Hin x) (or_introl eq_refl)) as [E|Hx]; [now symmetry|].
      destruct (proj2 (Hin y) (or_introl eq_refl)) as [E|Hy]; [assumption|].
      exfalso. apply (keyLt_irrefl x). apply keyLt_trans with y; auto. }
    subst y. f_equal. apply IH; auto.
    intros k. split; intros Hk.
    + destruct (proj1 (Hin k) (or_intror Hk)) as [E|?]; [|assumption].
      subst k. exfalso. exact (keyLt_irrefl x (F1 x Hk)).
    + destruct (proj2 (Hin k) (or_intror Hk)) as [E|?]; [|assumption].
      subst k. exfalso. exact (keyLt_irrefl x (F2 x Hk)).
Qed.

(** X1.  Posting [a] and then [b] leaves the instance, the store and the
    saved properties as one POST of [a ++ b] does: the batches of [Put]
    commit every span, whatever the number of spans. *)
Theorem Put_twice_is_Put_app (sv : Server) (a b : list tuple) :
  batcher sv = true ->
  Put (snd (Put sv (Spans a))) (Spans b) = Put sv (Spans (a ++ b)).
Proof.
  intros Hb. rewrite (Put_Spans sv a Hb). cbn [snd].
  rewrite Put_Spans by reflexivity. rewrite (Put_Spans sv (a ++ b) Hb).
  cbn [data db]. now rewrite map_app, Commit_app, fold_left_app.
Qed.

Lemma Put_twice_is_Put_app_witness :
  Put (snd (Put (newServer None) (Spans [mkTuple 0 0 0 1; mkTuple 4 1 2 2])))
      (Spans [mkTuple (-3) 0 0 0]) =
  Put (newServer None) (Spans ([mkTuple 0 0 0 1; mkTuple 4 1 2 2] ++ [mkTuple (-3) 0 0 0])).
Proof.
  apply (Put_twice_is_Put_app (newServer None)
           [mkTuple 0 0 0 1; mkTuple 4 1 2 2] [mkTuple (-3) 0 0 0]).
  reflexivity.
Defined.

(** X2.  [Put] is idempotent on a store in key order: repeating a POST
    changes nothing and is answered as the first one was. *)
Theorem Put_idempotent (sv : Server) (body : jsonSpans) :
  StronglySorted keyLt (db sv) ->
  Put (snd (Put sv body)) body = (fst (Put sv body), snd (Put sv body)).
Proof.
  intros Hs. destruct body as [|spans]; [reflexivity|].
  destruct (batcher sv) eqn:Hb.
  2:{ unfold Put. rewrite Hb. cbn [negb snd fst]. now rewrite Hb. }
  rewrite (Put_Spans sv spans Hb). cbn [snd fst].
  rewrite Put_Spans by reflexivity. cbn [data db].
  set (d' := fold_left extendZ spans (data sv)).
  assert (Ed : fold_left extendZ spans d' = d').
  { apply extendZ_fold_fix.
    destruct (extendZ_fold spans (data sv)) as (_ & _ & H3 & _ & _ & H6).
    fold d' in H3, H6. rewrite List.Forall_forall in *.
    intros t Ht. split; [apply H3 | apply H6]; apply in_map_iff; eauto. }
  rewrite Ed. do 2 f_equal.
  apply sorted_ext.
  - now apply Commit_sorted, Commit_sorted.
  - now apply Commit_sorted.
  - intros k. rewrite !Commit_In. tauto.
Qed.

Lemma Put_idempotent_witness :
  let sv := newServer None in
  let body := Spans [mkTuple 2 0 0 1; mkTuple 0 1 5 9] in
  Put (snd (Put sv body)) body = (fst (Put sv body), snd (Put sv body)).
Proof.
  apply (Put_idempotent (newServer None) (Spans [mkTuple 2 0 0 1; mkTuple 0 1 5 9])).
  constructor.
Defined.

(** X3.  The state a POST leaves does not depend on the order of the
    tuples in its body. *)
Theorem Put_order_irrelevant (sv : Server) (spans spans' : list tuple) :
  StronglySorted keyLt (db sv) -> Permutation spans spans' ->
  Put sv (Spans spans) = Put sv (Spans spans').
Proof.
  intros Hs Hp. destruct (batcher sv) eqn:Hb.
  2:{ unfold Put. now rewrite Hb. }
  rewrite !Put_Spans by assumption.
  rewrite (extendZ_fold_perm _ _ Hp). do 2 f_equal.
  apply sorted_ext; [now apply Commit_sorted | now apply Commit_sorted |].
  intros k. rewrite !Commit_In, !in_map_iff.
  split; (intros [(t & E & Ht)|H]; [left; exists t; split; [exact E|]|now right]).
  - now rewrite <- Hp.
  - now rewrite Hp.
Qed.

Lemma Put_order_irrelevant_witness :
  Put (newServer None) (Spans [mkTuple 2 0 0 1; mkTuple 0 1 5 9; mkTuple 0 0 3 3]) =
  Put (newServer None) (Spans [mkTuple 0 1 5 9; mkTuple 2 0 0 1; mkTuple 0 0 3 3]).
Proof.
  apply (Put_order_irrelevant (newServer None)
           [mkTuple 2 0 0 1; mkTuple 0 1 5 9; mkTuple 0 0 3 3]
           [mkTuple 0 1 5 9; mkTuple 2 0 0 1; mkTuple 0 0 3 3]).
  - constructor.
  - apply perm_swap.
Defined.




(** ** Point queries: the span cursor *)

Lemma seekLoop_spec c rest : forall i j b,
  seekLoop c rest i = (j, b) ->
  (i <= j <= i + length rest)%nat /\
  (forall k t, (k < j - i)%nat -> rest !! k = Some t -> less t c = true) /\
  (b = true -> exists t, rest !! (j - i)%nat = Some t /\
                         less t c = false /\ includes t c = true) /\
  (b = false -> forall t, rest !! (j - i)%nat = Some t ->
                          less t c = false /\ includes t c = false).
Proof.
  induction rest as [|t rest IH]; intros i j b; cbn [seekLoop].
  - intros [= <- <-]. rewrite Nat.sub_diag. cbn.
    repeat split; try lia; try discriminate.
  - destruct (less t c) eqn:L.
    + intros H. destruct (IH _ _ _ H) as (H1 & H2 & H3 & H4).
      replace (j - i)%nat with (S (j - S i)) by lia. cbn [length lookup list_lookup].
      split; [lia|]. split; [|split; assumption].
      intros [|k] t' Hk; cbn; [now intros [= <-]|].
      apply H2. lia.
    + destruct (includes t c) eqn:I; intros [= <- <-]; rewrite Nat.sub_diag; cbn.
      * repeat split; try lia; try discriminate; eauto.
      * repeat split; try lia; try discriminate; try congruence.
Qed.

Lemma seekSpan_true d pt spans i j :
  seekSpan d pt spans i = (j, true) ->
  exists t, spans !! j = Some t /\ includes t (Dvid.Chunk pt (BlockSize d)) = true.
Proof.
  unfold seekSpan.
  destruct (Nat.leb_spec (length spans) i) as [Hge|Hlt]; [discriminate|].
  intros H. apply seekLoop_spec in H as (H1 & _ & H3 & _).
  destruct (H3 eq_refl) as (t & Ht & _ & Hi). exists t. split; [|exact Hi].
  rewrite lookup_drop in Ht. now replace (i + (j - i))%nat with j in Ht by lia.
Qed.

(** X6.  [seekSpan] never moves the span cursor backwards, nor beyond the
    end of the spans when it started within them; every span it passed
    over is [less] than the block of the point; it answers [true] only
    when the span at the returned cursor includes that block, and when it
    answers [false] the span at the cursor, if there is one, neither is
    [less] than the block nor includes it. *)
Theorem seekSpan_spec (d : Data) (pt : Point3d) (spans : list tuple)
    (curSpanI j : nat) (b : bool) :
  seekSpan d pt spans curSpanI = (j, b) ->
  let chunkPt := Dvid.Chunk pt (BlockSize d) in
  (curSpanI <= j)%nat /\
  (curSpanI <= length spans -> j <= length spans)%nat /\
  (forall k t, (curSpanI <= k < j)%nat -> spans !! k = Some t ->
               less t chunkPt = true) /\
  (b = true -> exists t, spans !! j = Some t /\ includes t chunkPt = true) /\
  (b = false -> forall t, spans !! j = Some t ->
                          less t chunkPt = false /\ includes t chunkPt = false).
Proof.
  unfold seekSpan. cbn zeta.
  destruct (Nat.leb_spec (length spans) curSpanI) as [Hge|Hlt].
  - intros [= <- <-]. repeat split; try lia; try discriminate;
      match goal with H : spans !! _ = Some _ |- _ => apply lookup_lt_Some in H; lia end.
  - intros H. apply seekLoop_spec in H as (H1 & H2 & H3 & H4).
    rewrite length_drop in H1.
    split; [lia|]. split; [lia|]. split; [|split].
    + intros k t Hk Ht. apply (H2 (k - curSpanI)%nat t); [lia|].
      rewrite lookup_drop. now replace (curSpanI + (k - curSpanI))%nat with k by lia.
    + intros Hb. destruct (H3 Hb) as (t & Ht & _ & Hi). exists t. split; [|exact Hi].
      rewrite lookup_drop in Ht. now replace (curSpanI + (j - curSpanI))%nat with j in Ht by lia.
    + intros Hb t Ht. apply (H4 Hb).
      rewrite lookup_drop. now replace (curSpanI + (j - curSpanI))%nat with j by lia.
Qed.

Lemma seekSpan_spec_witness :
  let d := NewDataService None in
  let spans := [mkTuple 0 0 0 1; mkTuple 0 0 5 9; mkTuple 1 0 0 0] in
  let chunkPt := Dvid.Chunk (mkPoint3d 200 0 0) (BlockSize d) in
  (0 <= 1)%nat /\
  (0 <= length spans -> 1 <= length spans)%nat /\
  (forall k t, (0 <= k < 1)%nat -> spans !! k = Some t ->
               less t chunkPt = true) /\
  (true = true -> exists t, spans !! 1%nat = Some t /\ includes t chunkPt = true) /\
  (true = false -> forall t, spans !! 1%nat = Some t ->
                          less t chunkPt = false /\ includes t chunkPt = false).
Proof.
  apply (seekSpan_spec (NewDataService None) (mkPoint3d 200 0 0)
           [mkTuple 0 0 0 1; mkTuple 0 0 5 9; mkTuple 1 0 0 0] 0 1 true).
  reflexivity.
Defined.

Lemma insertZYX_length p l : length (insertZYX p l) = S (length l).
Proof.
  induction l as [|q l IH]; cbn; [reflexivity|].
  destruct (leZYX p q); cbn; [reflexivity|]. now rewrite IH.
Qed.

Lemma sortByZYX_length pts : length (sortByZYX pts) = length pts.
Proof.
  induction pts as [|p pts IH]; [reflexivity|].
  unfold sortByZYX in *. cbn [foldr length]. now rewrite insertZYX_length, IH.
Qed.

Lemma queryLoop_spec d spans pts : forall curSpan,
  length (queryLoop d pts spans curSpan) = length pts /\
  forall n, queryLoop d pts spans curSpan !! n = Some true ->
            exists p, pts !! n = Some p /\ blockInROI d spans p = true.
Proof.
  induction pts as [|pt pts IH]; intros curSpan; cbn [queryLoop].
  - split; [reflexivity|]. intros n H. now rewrite lookup_nil in H.
  - destruct (seekSpan d pt spans curSpan) as [j b] eqn:E.
    destruct (IH j) as [IH1 IH2]. cbn [length]. split; [now rewrite IH1|].
    intros [|n]; cbn.
    + intros [= ->]. exists pt. split; [reflexivity|].
      destruct (seekSpan_true _ _ _ _ _ E) as (t & Ht & Hi).
      unfold blockInROI. apply existsb_exists. exists t. split; [|exact Hi].
      apply list_elem_of_In. eapply list_elem_of_lookup_2, Ht.
    + apply IH2.
Qed.

(** X7.  [PointQuery] fails only on a body that does not parse; it gives
    one answer per point, and an answer [true] is never wrong: the point
    at that place of the sorted list has its block in a span of the ROI.
    (An answer [false] carries no such guarantee.) *)
Theorem PointQuery_no_false_positive (sv : Server) (pts : list Point3d) :
  PointQuery sv None = None /\
  exists inclusions,
    PointQuery sv (Some pts) = Some inclusions /\
    length inclusions = length pts /\
    forall n, inclusions !! n = Some true ->
              exists p, sortByZYX pts !! n = Some p /\
                        blockInROI (data sv) (getROI (db sv)) p = true.
Proof.
  split; [reflexivity|]. unfold PointQuery. eexists. split; [reflexivity|].
  destruct (queryLoop_spec (data sv) (getROI (db sv)) (sortByZYX pts) 0) as [H1 H2].
  split; [now rewrite H1, sortByZYX_length | exact H2].
Qed.

(** ** Layers and their ranges *)

Lemma extend_fold_fields blocks : forall L,
  let L' := fold_left extend blocks L in
  activeBlocks L' = activeBlocks L ++ blocks /\
  minZ L' = minZ L /\ maxZ L' = maxZ L /\
  minY L' <= minY L /\ maxY L <= maxY L' /\
  Forall (fun rle => minY L' <= p1 (start rle) <= maxY L') blocks.
Proof.
  induction blocks as [|rle blocks IH]; intros L; cbn zeta.
  - cbn. rewrite app_nil_r. repeat split; auto; lia.
  - cbn [fold_left]. destruct (IH (extend L rle)) as (H1 & H2 & H3 & H4 & H5 & H6).
    rewrite H1, H2, H3. cbn [extend activeBlocks minZ maxZ minY maxY] in *.
    rewrite <- app_assoc. cbn [app].
    destruct (Z.gtb_spec (minY L) (p1 (start rle))),
             (Z.ltb_spec (maxY L) (p1 (start rle)));
      (repeat split; [lia | lia | constructor; [lia | assumption]]).
Qed.

Lemma getYRange_fold blocks : forall L found,
  fold_left
    (fun '(minY, maxY, found) rle =>
       let minY := if p1 (start rle) <? minY then p1 (start rle) else minY in
       let maxY := if p1 (start rle) >? maxY then p1 (start rle) else maxY in
       (minY, maxY, true))
    blocks (minY L, maxY L, found) =
  (minY (fold_left extend blocks L), maxY (fold_left extend blocks L),
   match blocks with [] => found | _ => true end).
Proof.
  induction blocks as [|rle blocks IH]; intros L found; [reflexivity|].
  cbn [fold_left]. cbv zeta.
  specialize (IH (extend L rle) true). cbn [extend minY maxY] in IH.
  rewrite (Z.gtb_ltb (minY L)), <- (Z.gtb_ltb (p1 (start rle)) (maxY L)) in IH.
  rewrite IH. now destruct blocks.
Qed.

Lemma getXRange_fold lo hi blocks : forall L,
  Forall (fun rle => lo <= p1 (start rle) <= hi) blocks ->
  fold_left
    (fun '(minX, maxX, actives) rle =>
       if (p1 (start rle) >=? lo) && (p1 (start rle) <=? hi) then
         let minX := if p0 (start rle) <? minX then p0 (start rle) else minX in
         let x1 := int32 (int32 (p0 (start rle) + int32 (span rle)) - 1) in
         let maxX := if x1 >? maxX then x1 else maxX in
         (minX, maxX, actives ++ [rle])
       else (minX, maxX, actives))
    blocks (minX L, maxX L, activeBlocks L) =
  (minX (fold_left extend blocks L), maxX (fold_left extend blocks L),
   activeBlocks (fold_left extend blocks L)).
Proof.
  induction blocks as [|rle blocks IH]; intros L H; [reflexivity|].
  inversion H as [|? ? Hy Hb]; subst.
  cbn [fold_left]. cbv zeta.
  destruct (Z.geb_spec (p1 (start rle)) lo) as [_|F]; [|lia].
  destruct (Z.leb_spec (p1 (start rle)) hi) as [_|F]; [|lia].
  cbn [andb].
  specialize (IH (extend L rle) Hb). cbn [extend minX maxX activeBlocks] in IH.
  rewrite (Z.gtb_ltb (minX L)), <- (Z.gtb_ltb _ (maxX L)) in IH.
  exact IH.
Qed.

(** X8.  The extents a layer accumulates through [extend] are the ones
    [addSubvolumes] recomputes: on the blocks of the layer [getYRange]
    returns the layer's Y range, and [getXRange] over that Y range returns
    the layer's X range and all of its blocks, in order; the Z range is
    the one [newLayer] was given. *)
Theorem extend_tracks_ranges (blocks : list indexRLE) (z0 z1 : Z) :
  let layer := fold_left extend blocks (newLayer z0 z1) in
  activeBlocks layer = blocks /\ minZ layer = z0 /\ maxZ layer = z1 /\
  getYRange blocks =
    (minY layer, maxY layer, match blocks with [] => false | _ => true end) /\
  getXRange blocks (minY layer) (maxY layer) = (minX layer, maxX layer, blocks).
Proof.
  cbn zeta.
  destruct (extend_fold_fields blocks (newLayer z0 z1)) as (H1 & H2 & H3 & _ & _ & H6).
  cbn [newLayer activeBlocks minZ maxZ app] in H1, H2, H3.
  split; [exact H1|]. split; [exact H2|]. split; [exact H3|]. split.
  - unfold getYRange. exact (getYRange_fold blocks (newLayer z0 z1) false).
  - unfold getXRange.
    pose proof (getXRange_fold _ _ blocks (newLayer z0 z1) H6) as E.
    rewrite H1 in E. exact E.
Qed.

Lemma extend_fold_X blocks : forall L,
  let L' := fold_left extend blocks L in
  minX L' <= minX L /\ maxX L <= maxX L' /\
  Forall (fun rle => minX L' <= p0 (start rle) /\ lastX rle <= maxX L') blocks.
Proof.
  induction blocks as [|rle blocks IH]; intros L; cbn zeta.
  - cbn. repeat split; auto; lia.
  - cbn [fold_left]. destruct (IH (extend L rle)) as (H1 & H2 & H3).
    cbn [extend minX maxX] in H1, H2. fold (lastX rle) in H2.
    destruct (Z.gtb_spec (minX L) (p0 (start rle))),
             (Z.ltb_spec (maxX L) (lastX rle));
      (repeat split; [lia | lia | constructor; [lia | assumption]]).
Qed.

Lemma extend_fold_attained blocks : forall L,
  let L' := fold_left extend blocks L in
  (minY L' = minY L \/ exists rle, In rle blocks /\ p1 (start rle) = minY L') /\
  (maxY L' = maxY L \/ exists rle, In rle blocks /\ p1 (start rle) = maxY L') /\
  (minX L' = minX L \/ exists rle, In rle blocks /\ p0 (start rle) = minX L') /\
  (maxX L' = maxX L \/ exists rle, In rle blocks /\ lastX rle = maxX L').
Proof.
  induction blocks as [|rle blocks IH]; intros L; cbn zeta.
  - cbn. auto.
  - cbn [fold_left]. destruct (IH (extend L rle)) as (H1 & H2 & H3 & H4).
    cbn [extend minX maxX minY maxY] in H1, H2, H3, H4. fold (lastX rle) in H4.
    assert (R : forall (P : indexRLE -> Prop),
               (exists r, In r blocks /\ P r) -> exists r, In r (rle :: blocks) /\ P r).
    { intros P (r & Hr & HP). exists r. split; [now right | exact HP]. }
    repeat split.
    + destruct H1 as [E|H]; [|right; now apply R]. rewrite E.
      destruct (minY L >? p1 (start rle)); [right; exists rle; split; [now left|reflexivity] | now left].
    + destruct H2 as [E|H]; [|right; now apply R]. rewrite E.
      destruct (maxY L <? p1 (start rle)); [right; exists rle; split; [now left|reflexivity] | now left].
    + destruct H3 as [E|H]; [|right; now apply R]. rewrite E.
      destruct (minX L >? p0 (start rle)); [right; exists rle; split; [now left|reflexivity] | now left].
    + destruct H4 as [E|H]; [|right; now apply R]. rewrite E.
      destruct (maxX L <? lastX rle); [right; exists rle; split; [now left|reflexivity] | now left].
Qed.

(** X9.  [getYRange] reports [found] exactly when there is a block; its
    range contains the Y of every block and, for [int32] coordinates, both
    ends are the Y of some block; without blocks the range is the inverted
    initial one. *)
Theorem getYRange_spec (blocks : list indexRLE) :
  exists minY maxY,
    getYRange blocks = (minY, maxY, match blocks with [] => false | _ => true end) /\
    Forall (fun rle => minY <= p1 (start rle) <= maxY) blocks /\
    (blocks = [] -> minY = math.MaxInt32 /\ maxY = math.MinInt32) /\
    (Forall (fun rle => is_int32 (p1 (start rle))) blocks -> blocks <> [] ->
     (exists rle, In rle blocks /\ p1 (start rle) = minY) /\
     (exists rle, In rle blocks /\ p1 (start rle) = maxY)).
Proof.
  set (L := newLayer 0 0).
  exists (minY (fold_left extend blocks L)), (maxY (fold_left extend blocks L)).
  destruct (extend_fold_fields blocks L) as (_ & _ & _ & H4 & H5 & H6).
  destruct (extend_fold_attained blocks L) as (A1 & A2 & _ & _).
  split; [exact (getYRange_fold blocks L false)|].
  split; [exact H6|]. split; [now intros ->|].
  intros Hi Hne. destruct blocks as [|b blocks]; [congruence|].
  inversion Hi as [|? ? Hb _]; subst. inversion H6 as [|? ? Hb' _]; subst.
  cbn [L newLayer minY maxY] in *. unfold is_int32 in Hb.
  split.
  - destruct A1 as [E|A]; [|exact A]. exists b. split; [now left|]. lia.
  - destruct A2 as [E|A]; [|exact A]. exists b. split; [now left|]. lia.
Qed.

Lemma getXRange_filter lo hi blocks : forall acc,
  fold_left
    (fun '(minX, maxX, actives) rle =>
       if (p1 (start rle) >=? lo) && (p1 (start rle) <=? hi) then
         let minX := if p0 (start rle) <? minX then p0 (start rle) else minX in
         let x1 := int32 (int32 (p0 (start rle) + int32 (span rle)) - 1) in
         let maxX := if x1 >? maxX then x1 else maxX in
         (minX, maxX, actives ++ [rle])
       else (minX, maxX, actives))
    blocks acc =
  fold_left
    (fun '(minX, maxX, actives) rle =>
       if (p1 (start rle) >=? lo) && (p1 (start rle) <=? hi) then
         let minX := if p0 (start rle) <? minX then p0 (start rle) else minX in
         let x1 := int32 (int32 (p0 (start rle) + int32 (span rle)) - 1) in
         let maxX := if x1 >? maxX then x1 else maxX in
         (minX, maxX, actives ++ [rle])
       else (minX, maxX, actives))
    (List.filter (inRow lo hi) blocks) acc.
Proof.
  induction blocks as [|rle blocks IH]; intros [[mn mx] acts]; [reflexivity|].
  cbn [fold_left List.filter].
  change (inRow lo hi rle) with ((p1 (start rle) >=? lo) && (p1 (start rle) <=? hi)).
  destruct ((p1 (start rle) >=? lo) && (p1 (start rle) <=? hi)) eqn:E.
  - cbn [fold_left]. rewrite E. apply IH.
  - apply IH.
Qed.

Lemma getXRange_actives blocks lo hi :
  let actives := List.filter (inRow lo hi) blocks in
  let L := fold_left extend actives (newLayer 0 0) in
  getXRange blocks lo hi = (minX L, maxX L, actives).
Proof.
  cbn zeta. unfold getXRange. rewrite getXRange_filter.
  set (actives := List.filter (inRow lo hi) blocks).
  assert (H : Forall (fun rle => lo <= p1 (start rle) <= hi) actives).
  { apply List.Forall_forall. intros rle [_ Hr]%filter_In. unfold inRow in Hr. lia. }
  etransitivity; [exact (getXRange_fold lo hi actives (newLayer 0 0) H)|].
  destruct (extend_fold_fields actives (newLayer 0 0)) as (H1 & _).
  now rewrite H1.
Qed.

(** X10.  [getXRange] returns, in their order, exactly the runs whose Y
    lies in [[minY, maxY]], and an X range that contains the first and the
    last block of each of them; for [int32] coordinates both ends are
    reached by some run, and without such runs the range is the inverted
    initial one. *)
Theorem getXRange_spec (blocks : list indexRLE) (minY maxY : Z) :
  let actives := List.filter (inRow minY maxY) blocks in
  exists minX maxX,
    getXRange blocks minY maxY = (minX, maxX, actives) /\
    Forall (fun rle => minX <= p0 (start rle) /\ lastX rle <= maxX) actives /\
    (actives = [] -> minX = math.MaxInt32 /\ maxX = math.MinInt32) /\
    (Forall (fun rle => is_int32 (p0 (start rle))) actives -> actives <> [] ->
     (exists rle, In rle actives /\ p0 (start rle) = minX) /\
     (exists rle, In rle actives /\ lastX rle = maxX)).
Proof.
  cbn zeta. set (actives := List.filter (inRow minY maxY) blocks).
  set (L := newLayer 0 0).
  exists (minX (fold_left extend actives L)), (maxX (fold_left extend actives L)).
  destruct (extend_fold_X actives L) as (H1 & H2 & H3).
  destruct (extend_fold_attained actives L) as (_ & _ & A3 & A4).
  split; [exact (getXRange_actives blocks minY maxY)|].
  split; [exact H3|]. split; [now intros ->|].
  intros Hi Hne. destruct actives as [|b acts]; [congruence|].
  inversion Hi as [|? ? Hb _]; subst. inversion H3 as [|? ? [Hb1 Hb2] _]; subst.
  pose proof (int32_range (int32 (p0 (start b) + int32 (span b)) - 1)) as Hl.
  fold (lastX b) in Hl.
  cbn [L newLayer minX maxX] in *. unfold is_int32 in Hb, Hl.
  split.
  - destruct A3 as [E|A]; [|exact A]. exists b. split; [now left|]. lia.
  - destruct A4 as [E|A]; [|exact A]. exists b. split; [now left|]. lia.
Qed.

(** ** Counting active blocks *)

Lemma int32_0 : int32 0 = 0.
Proof. reflexivity. Qed.

Lemma int32_int32 v : int32 (int32 v) = int32 v.
Proof. apply int32_id, int32_range. Qed.

Ltac int32_lia := unfold int32, uint32 in *; Z.div_mod_to_equations; lia.

Lemma findActives_acc lo hi blocks : forall n,
  fold_left
    (fun numActive rle =>
       let spanBeg := p0 (start rle) in
       if spanBeg >? hi then numActive
       else
         let spanEnd := int32 (int32 (spanBeg + int32 (span rle)) - 1) in
         if spanEnd <? lo then numActive
         else
           let x0 := Dvid.MaxInt32 lo spanBeg in
           let x1 := Dvid.MinInt32 hi spanEnd in
           int32 (numActive + int32 (int32 (x1 - x0) + 1)))
    blocks (int32 n) =
  int32 (n + sumZ (map (activeIn lo hi) blocks)).
Proof.
  induction blocks as [|rle blocks IH]; intros n.
  - cbn. f_equal. lia.
  - cbn [fold_left map sumZ foldr]. fold (sumZ (map (activeIn lo hi) blocks)).
    cbv zeta. fold (lastX rle). unfold activeIn at 1. cbv zeta.
    destruct (p0 (start rle) >? hi).
    + rewrite IH. f_equal; lia.
    + destruct (lastX rle <? lo).
      * rewrite IH. f_equal; lia.
      * rewrite IH. int32_lia.
Qed.

Lemma findActives_sum blocks lo hi :
  findActives blocks lo hi = int32 (sumZ (map (activeIn lo hi) blocks)).
Proof.
  unfold findActives. rewrite <- int32_0 at 1. now rewrite findActives_acc.
Qed.

Lemma lastX_fits rle : fits rle -> lastX rle = p0 (start rle) + span rle - 1.
Proof.
  unfold fits, lastX, is_int32, math.MinInt32, math.MaxInt32.
  intros (Hx & _ & Hs & He). int32_lia.
Qed.

Lemma activeIn_split a b c rle :
  p0 (start rle) <= lastX rle -> a <= b + 1 -> b <= c ->
  activeIn a c rle = activeIn a b rle + activeIn (b + 1) c rle.
Proof.
  intros Hr Hab Hbc. unfold activeIn, Dvid.MinInt32, Dvid.MaxInt32. cbv zeta.
  repeat match goal with
         | |- context [?x >? ?y] => destruct (Z.gtb_spec x y)
         | |- context [?x <? ?y] => destruct (Z.ltb_spec x y)
         end; lia.
Qed.

Lemma sumZ_activeIn_split blocks a b c :
  Forall (fun rle => p0 (start rle) <= lastX rle) blocks ->
  a <= b + 1 -> b <= c ->
  sumZ (map (activeIn a c) blocks) =
  sumZ (map (activeIn a b) blocks) + sumZ (map (activeIn (b + 1) c) blocks).
Proof.
  intros Hr Hab Hbc.
  induction Hr as [|rle blocks H _ IH]; [reflexivity|].
  cbn [map sumZ foldr]. fold (sumZ (map (activeIn a c) blocks)).
  fold (sumZ (map (activeIn a b) blocks)). fold (sumZ (map (activeIn (b + 1) c) blocks)).
  rewrite IH, (activeIn_split a b c rle) by assumption. lia.
Qed.

Lemma sumZ_activeIn_whole blocks lo hi :
  Forall (fun rle => fits rle /\ lo <= p0 (start rle) /\ lastX rle <= hi) blocks ->
  sumZ (map (activeIn lo hi) blocks) = sumZ (map span blocks).
Proof.
  intros H.
  induction H as [|rle blocks (Hf & Hlo & Hhi) _ IH]; [reflexivity|].
  cbn [map sumZ foldr]. fold (sumZ (map (activeIn lo hi) blocks)).
  fold (sumZ (map span blocks)). rewrite IH. f_equal.
  pose proof (lastX_fits rle Hf) as E. destruct Hf as (_ & _ & Hs & _).
  unfold activeIn, Dvid.MinInt32, Dvid.MaxInt32. cbv zeta.
  repeat match goal with
         | |- context [?x >? ?y] => destruct (Z.gtb_spec x y)
         | |- context [?x <? ?y] => destruct (Z.ltb_spec x y)
         end; lia.
Qed.


(** X11.  [findActives] is additive over adjacent column windows: for
    runs that do not wrap around, the count over [[a, c]] is the ([int32])
    sum of the counts over [[a, b]] and [[b + 1, c]], so cutting a row into
    columns neither loses a block nor counts one twice. *)
Theorem findActives_split (blocks : list indexRLE) (a b c : Z) :
  Forall (fun rle => p0 (start rle) <= lastX rle) blocks ->
  a <= b + 1 -> b <= c ->
  findActives blocks a c =
  int32 (findActives blocks a b + findActives blocks (b + 1) c).
Proof.
  intros Hr Hab Hbc. rewrite !findActives_sum, int32_add_l, int32_add_r. f_equal.
  now apply sumZ_activeIn_split.
Qed.

Lemma findActives_split_witness :
  let blocks := [mkIndexRLE (mkPoint3d 0 0 0) 3; mkIndexRLE (mkPoint3d 5 1 0) 4] in
  findActives blocks 1 7 =
  int32 (findActives blocks 1 5 + findActives blocks (5 + 1) 7).
Proof.
  apply (findActives_split
           [mkIndexRLE (mkPoint3d 0 0 0) 3; mkIndexRLE (mkPoint3d 5 1 0) 4] 1 5 7).
  - repeat constructor; vm_compute; discriminate.
  - lia.
  - lia.
Defined.

(** X12.  Over a window that contains every run, [findActives] counts
    every block of every run: the ([int32]) sum of the spans. *)
Theorem findActives_whole_row (blocks : list indexRLE) (minX maxX : Z) :
  Forall (fun rle => fits rle /\ minX <= p0 (start rle) /\ lastX rle <= maxX) blocks ->
  findActives blocks minX maxX = int32 (sumZ (map span blocks)).
Proof.
  intros H. rewrite findActives_sum. f_equal. now apply sumZ_activeIn_whole.
Qed.

Lemma findActives_whole_row_witness :
  findActives [mkIndexRLE (mkPoint3d 0 0 0) 3; mkIndexRLE (mkPoint3d 5 1 0) 4] (-2) 9 =
  int32 (sumZ (map span [mkIndexRLE (mkPoint3d 0 0 0) 3; mkIndexRLE (mkPoint3d 5 1 0) 4])).
Proof.
  apply (findActives_whole_row
           [mkIndexRLE (mkPoint3d 0 0 0) 3; mkIndexRLE (mkPoint3d 5 1 0) 4] (-2) 9).
  repeat constructor; vm_compute; try discriminate; try reflexivity.
Defined.

(** ** Padding *)




(** ** [Partition]: a zero batch size *)

(** X14.  A batch size that [strconv.Atoi] accepts and whose [int32]
    conversion is zero -- 0 itself, or any multiple of 2^32 -- is not
    rejected by the handler: [Partition] divides by it and panics,
    whatever the ROI holds. *)
Theorem partition_zero_batchsize (fuel : nat) (sv : Server) (versions : list Z)
    (r : Request) (batchsize : Z) :
  (String.length WebAPIPath <= String.length (Path r))%nat ->
  urlParts (Path r) !! 3%nat = Some "partition"%string ->
  Str.ToLower (Method r) = "get"%string ->
  Str.Atoi (Get (Query r) "batchsize") = inl batchsize ->
  int32 batchsize = 0 ->
  Partition fuel sv (int32 batchsize) = Panic "integer divide by zero" /\
  ServeHTTP fuel sv (Some versions) r = (Panicked "integer divide by zero", sv).
Proof.
  intros Hlen Hcmd Hget Hq Hz.
  assert (HP : Partition fuel sv (int32 batchsize) = Panic "integer divide by zero").
  { rewrite Hz. reflexivity. }
  split; [exact HP|].
  unfold ServeHTTP.
  destruct (Nat.ltb_spec (String.length (Path r)) (String.length WebAPIPath)) as [F|_];
    [lia|].
  rewrite Hcmd, Hget. cbn -[Str.Atoi Partition Get int32].
  now rewrite Hq, HP.
Qed.

Lemma partition_zero_batchsize_witness :
  let sv := snd (Put (newServer None) (Spans [mkTuple 0 0 0 2])) in
  let r := mkRequest "GET" "/api/node/3f8c/medulla/partition"
             {["batchsize"%string := ["4294967296"%string]]} BadJSON None in
  Partition 10 sv (int32 4294967296) = Panic "integer divide by zero" /\
  ServeHTTP 10 sv (Some [1]) r = (Panicked "integer divide by zero", sv).
Proof.
  apply (partition_zero_batchsize 10
           (snd (Put (newServer None) (Spans [mkTuple 0 0 0 2]))) [1]
           (mkRequest "GET" "/api/node/3f8c/medulla/partition"
              {["batchsize"%string := ["4294967296"%string]]} BadJSON None)
           4294967296).
  - cbn. lia.
  - reflexivity.
  - reflexivity.
  - vm_compute. reflexivity.
  - reflexivity.
Defined.

(** ** [Partition]: the counters of the header *)

Lemma sumZ_app l1 l2 : sumZ (l1 ++ l2) = sumZ l1 + sumZ l2.
Proof.
  unfold sumZ. induction l1 as [|x l1 IH]; cbn [app foldr]; [reflexivity|].
  rewrite IH. lia.
Qed.

Lemma index_last {A} (l : list A) a :
  index l (Z.of_nat (length l) - 1) = Ok a ->
  exists l', l = l' ++ [a] /\
             forall x, <[Z.to_nat (Z.of_nat (length l) - 1) := x]> l = l' ++ [x].
Proof.
  destruct l as [|b l] using rev_ind; [discriminate|]. clear IHl.
  unfold index. rewrite length_app. cbn [length].
  destruct (Z.ltb_spec (Z.of_nat (length l + 1) - 1) 0) as [F|_]; [lia|].
  replace (Z.to_nat (Z.of_nat (length l + 1) - 1)) with (length l + 0)%nat by lia.
  rewrite lookup_app_r by lia.
  replace (length l + 0 - length l)%nat with 0%nat by lia. cbn.
  intros [= ->]. exists l. split; [reflexivity|].
  intros x. now rewrite insert_app_r.
Qed.

Lemma addColumn_cases d svs thr minC maxC numTotal numActive :
  (exists l, addColumn d svs thr minC maxC numTotal numActive =
             Ok {| NumTotalBlocks := int32 (NumTotalBlocks svs + numTotal);
                   NumActiveBlocks := int32 (NumActiveBlocks svs + numActive);
                   NumSubvolumes := NumSubvolumes svs;
                   Subvolumes := l |} /\
             l <> [] /\
             int32 (sumZ (map TotalBlocks l)) =
               int32 (sumZ (map TotalBlocks (Subvolumes svs)) + numTotal) /\
             int32 (sumZ (map ActiveBlocks l)) =
               int32 (sumZ (map ActiveBlocks (Subvolumes svs)) + numActive)) \/
  (addColumn d svs thr minC maxC numTotal numActive = Panic "index out of range" /\
   Subvolumes svs = [] /\ numActive < thr).
Proof.
  unfold addColumn.
  destruct (Z.ltb_spec numActive thr) as [Hlt|Hge].
  - destruct (index (Subvolumes svs) (Z.of_nat (length (Subvolumes svs)) - 1))
      as [old| |] eqn:E.
    + left. destruct (index_last _ _ E) as (l' & El & Ei).
      cbn [bind]. rewrite Ei. eexists. split; [reflexivity|].
      split; [now destruct l'|].
      rewrite El, !map_app, !sumZ_app. cbn [map sumZ foldr TotalBlocks ActiveBlocks].
      split; int32_lia.
    + right. unfold index in E.
      destruct (Subvolumes svs) as [|a l]; [cbn in E; injection E as <-; auto|].
      exfalso. cbn [length] in E.
      destruct (Z.ltb_spec (Z.of_nat (S (length l)) - 1) 0) as [F|_]; [lia|].
      replace (Z.to_nat (Z.of_nat (S (length l)) - 1)) with (length l) in E by lia.
      destruct (lookup_lt_is_Some_2 (a :: l) (length l) ltac:(cbn; lia)) as [x Hx].
      rewrite Hx in E. discriminate E.
    + exfalso. unfold index in E.
      destruct (_ <? 0); [discriminate|]. destruct (_ !! _); discriminate.
  - left. cbn [bind]. eexists. split; [reflexivity|].
    split; [now destruct (Subvolumes svs)|].
    rewrite !map_app, !sumZ_app. cbn [map sumZ foldr TotalBlocks ActiveBlocks].
    split; int32_lia.
Qed.

Lemma addColumn_agree d svs thr minC maxC numTotal numActive svs' :
  countersAgree svs ->
  addColumn d svs thr minC maxC numTotal numActive = Ok svs' ->
  countersAgree svs' /\
  NumActiveBlocks svs' = int32 (NumActiveBlocks svs + numActive) /\
  NumSubvolumes svs' = NumSubvolumes svs /\ Subvolumes svs' <> [].
Proof.
  intros [A1 A2] H.
  destruct (addColumn_cases d svs thr minC maxC numTotal numActive)
    as [(l & E & Hne & S1 & S2)|(E & _)]; [|congruence].
  rewrite E in H. injection H as <-. unfold countersAgree.
  cbn [NumTotalBlocks NumActiveBlocks NumSubvolumes Subvolumes].
  rewrite S1, S2, A1, A2. repeat split; auto; int32_lia.
Qed.

Lemma columns_agree d layer B thr actives begY endY maxX fuel :
  forall begX xleft svs svs',
    countersAgree svs ->
    columns fuel d layer B thr actives begY endY maxX begX xleft svs = Ok svs' ->
    countersAgree svs'.
Proof.
  induction fuel as [|fuel IH]; intros begX xleft svs svs' A; cbn [columns];
    [discriminate|].
  destruct (begX >? maxX); [now intros [= <-]|].
  destruct (xleft >? 0);
    match goal with
    | |- context [addColumn ?a ?b ?c ?e ?f ?g ?h] =>
        destruct (addColumn a b c e f g h) as [s1| |] eqn:E; cbn [bind];
        try discriminate;
        apply addColumn_agree in E as (A1 & _); [|exact A]
    end; apply IH; exact A1.
Qed.

Lemma rows_agree d layer B thr maxY fuel :
  forall begY yleft svs svs',
    countersAgree svs ->
    rows fuel d layer B thr maxY begY yleft svs = Ok svs' ->
    countersAgree svs'.
Proof.
  induction fuel as [|fuel IH]; intros begY yleft svs svs' A; cbn [rows];
    [discriminate|].
  destruct (begY >? maxY); [now intros [= <-]|].
  destruct (yleft >? 0);
    match goal with
    | |- context [getXRange ?a ?b ?c] =>
        destruct (getXRange a b c) as [[mnx mxx] acts]
    end;
    (destruct (0 <? length acts)%nat;
     [ match goal with
       | |- context [rem ?a ?b] => destruct (rem a b) as [xl| |]; cbn [bind];
                                   try discriminate
       end;
       match goal with
       | |- context [columns ?f ?a ?b ?c ?e ?g ?h ?i ?j ?k ?l ?m] =>
           destruct (columns f a b c e g h i j k l m) as [s1| |] eqn:E; cbn [bind];
           try discriminate; apply columns_agree in E; [|exact A]
       end; apply IH; exact E
     | cbn [bind]; apply IH; exact A ]).
Qed.

Lemma addSubvolumes_agree fuel d layer svs B svs' :
  countersAgree svs ->
  addSubvolumes fuel d layer svs B = Ok svs' ->
  countersAgree svs'.
Proof.
  intros A. unfold addSubvolumes.
  destruct (getYRange (activeBlocks layer)) as [[mn mx] found].
  destruct found; cbn [negb]; [|now intros [= <-]].
  destruct (rem _ B) as [yl| |]; cbn [bind]; try discriminate.
  now apply rows_agree.
Qed.

Lemma partitionChunk_agree fuel d B st k st' :
  countersAgree (subvolumes st) ->
  partitionChunk fuel d B st k = Ok st' ->
  countersAgree (subvolumes st').
Proof.
  intros A. unfold partitionChunk. cbv zeta.
  destruct (_ >? layerEndZ (cursor st)).
  - destruct (addSubvolumes fuel d (layer st) (subvolumes st) B) as [s1| |] eqn:E;
      cbn [bind]; try discriminate.
    intros [= <-]. cbn [subvolumes]. eapply addSubvolumes_agree; eassumption.
  - cbn [bind]. now intros [= <-].
Qed.

Lemma partitionRange_agree fuel d B keys : forall st st',
  countersAgree (subvolumes st) ->
  partitionRange fuel d B st keys = Ok st' ->
  countersAgree (subvolumes st').
Proof.
  induction keys as [|k keys IH]; intros st st' A; cbn [partitionRange].
  - now intros [= <-].
  - destruct (partitionChunk fuel d B st k) as [s1| |] eqn:E; cbn [bind];
      try discriminate.
    apply IH. eapply partitionChunk_agree; eassumption.
Qed.

(** X15.  Whenever [Partition] returns, the header of its result agrees
    with the list of subvolumes: [NumSubvolumes] is its length, and
    [NumTotalBlocks] and [NumActiveBlocks] are the ([int32]) sums of the
    subvolumes' [TotalBlocks] and [ActiveBlocks] -- merged columns
    included. *)
Theorem Partition_counters (fuel : nat) (sv : Server) (batchsize : Z)
    (s : subvolumesT) (log : list (Z * Z)) :
  Partition fuel sv batchsize = Ok (s, log) ->
  NumSubvolumes s = int32 (Z.of_nat (length (Subvolumes s))) /\
  NumTotalBlocks s = int32 (sumZ (map TotalBlocks (Subvolumes s))) /\
  NumActiveBlocks s = int32 (sumZ (map ActiveBlocks (Subvolumes s))).
Proof.
  unfold Partition.
  destruct (firstLayer (data sv) batchsize) as [c| |]; cbn [bind]; try discriminate.
  match goal with
  | |- context [partitionRange ?f ?d ?b ?st ?ks] =>
      destruct (partitionRange f d b st ks) as [st1| |] eqn:E; cbn [bind];
      try discriminate;
      apply partitionRange_agree in E; [|split; reflexivity]
  end.
  destruct (0 <? length (activeBlocks (layer st1)))%nat.
  - destruct (addSubvolumes fuel (data sv) (layer st1) (subvolumes st1) batchsize)
      as [s1| |] eqn:E1; cbn [bind]; try discriminate.
    apply addSubvolumes_agree in E1 as [A1 A2]; [|exact E].
    intros [= <- _]. cbn. auto.
  - cbn [bind]. destruct E as [A1 A2]. intros [= <- _]. cbn. auto.
Qed.

Lemma Partition_counters_witness :
  let s := {| NumTotalBlocks := 72; NumActiveBlocks := 4; NumSubvolumes := 1;
              Subvolumes := [ {| MinCorner := mkPoint3d 0 0 0;
                                 MaxCorner := mkPoint3d 160 96 64;
                                 TotalBlocks := 72; ActiveBlocks := 4 |} ] |} in
  NumSubvolumes s = int32 (Z.of_nat (length (Subvolumes s))) /\
  NumTotalBlocks s = int32 (sumZ (map TotalBlocks (Subvolumes s))) /\
  NumActiveBlocks s = int32 (sumZ (map ActiveBlocks (Subvolumes s))).
Proof.
  apply (Partition_counters 6
           (snd (Put (newServer None) (Spans [mkTuple 0 0 0 2; mkTuple 0 0 5 5]))) 3
           _ [(0, 2)]).
  vm_compute. reflexivity.
Defined.

(** ** [Partition]: termination, and no block is lost *)





















(** ** [ServeHTTP]: what a request can change, other verbs, the last slash *)



(** X20.  A request whose method is neither GET nor POST (compared without
    regard to case) is not refused on [roi] and [ptquery]: the switch on
    the method has no default, so a DELETE or PUT is answered 200 with an
    empty body and changes nothing.  [help] and [info] answer whatever the
    method, [partition] refuses with its own 400, and any other command
    gets the 400 of the unknown command. *)
Theorem ServeHTTP_other_verbs (fuel : nat) (sv : Server) (versions : list Z)
    (r : Request) (command : string) :
  (String.length WebAPIPath <= String.length (Path r))%nat ->
  urlParts (Path r) !! 3%nat = Some command ->
  Str.ToLower (Method r) <> "get"%string ->
  Str.ToLower (Method r) <> "post"%string ->
  ServeHTTP fuel sv (Some versions) r =
  if String.eqb command "help" then (HelpText, sv)
  else if String.eqb command "info" then (InfoJSON (data sv), sv)
  else if String.eqb command "roi" || String.eqb command "ptquery" then (Nothing, sv)
  else if String.eqb command "partition" then (BadRequest PartitionOnlyGET, sv)
  else (BadRequest OnlyGETorPOST, sv).
Proof.
  intros Hlen Hcmd Hg Hp. unfold ServeHTTP.
  destruct (Nat.ltb_spec (String.length (Path r)) (String.length WebAPIPath)) as [F|_];
    [lia|].
  rewrite Hcmd.
  destruct (String.eqb_spec (Str.ToLower (Method r)) "get") as [F|_]; [contradiction|].
  destruct (String.eqb_spec (Str.ToLower (Method r)) "post") as [F|_]; [contradiction|].
  destruct (String.eqb command "help"); [reflexivity|].
  destruct (String.eqb command "info"); [reflexivity|].
  destruct (String.eqb command "roi"); [reflexivity|].
  destruct (String.eqb command "ptquery"); [reflexivity|].
  reflexivity.
Qed.

Lemma ServeHTTP_other_verbs_witness :
  let sv := snd (Put (newServer None) (Spans [mkTuple 0 0 0 1])) in
  ServeHTTP 5 sv (Some [1])
    (mkRequest "DELETE" "/api/node/3f8c/medulla/roi" ∅ BadJSON None) =
  if String.eqb "roi" "help" then (HelpText, sv)
  else if String.eqb "roi" "info" then (InfoJSON (data sv), sv)
  else if String.eqb "roi" "roi" || String.eqb "roi" "ptquery" then (Nothing, sv)
  else if String.eqb "roi" "partition" then (BadRequest PartitionOnlyGET, sv)
  else (BadRequest OnlyGETorPOST, sv).
Proof.
  apply (ServeHTTP_other_verbs 5
           (snd (Put (newServer None) (Spans [mkTuple 0 0 0 1]))) [1]
           (mkRequest "DELETE" "/api/node/3f8c/medulla/roi" ∅ BadJSON None) "roi").
  - cbn. lia.
  - reflexivity.
  - vm_compute. discriminate.
  - vm_compute. discriminate.
Defined.

Lemma append_nil (t : string) : String.append "" t = t.
Proof. reflexivity. Qed.

Lemma append_cons c (s t : string) :
  String.append (String c s) t = String c (String.append s t).
Proof. reflexivity. Qed.

Lemma string_length_app (s t : string) :
  String.length (s ++ t) = (String.length s + String.length t)%nat.
Proof.
  induction s as [|c s IH]; [reflexivity|].
  rewrite append_cons. cbn [String.length]. now rewrite IH.
Qed.

Lemma substring_all (s : string) : String.substring 0 (String.length s) s = s.
Proof. induction s as [|c s IH]; cbn; [reflexivity | now rewrite IH]. Qed.

Lemma substring_app_tail (n : nat) : forall (s t : string),
  (n <= String.length s)%nat ->
  String.substring n (String.length (s ++ t) - n) (s ++ t) =
  (String.substring n (String.length s - n) s ++ t)%string.
Proof.
  induction n as [|n IH]; intros s t Hn.
  - rewrite !Nat.sub_0_r, !substring_all. reflexivity.
  - destruct s as [|c s]; [cbn in Hn; lia|]. cbn in Hn.
    rewrite append_cons. cbn [String.length String.substring Nat.sub]. apply IH. lia.
Qed.

Lemma substring_prefix (n : nat) : forall (s : string),
  (n <= String.length s)%nat ->
  s = (String.substring 0 n s ++ String.substring n (String.length s - n) s)%string.
Proof.
  induction n as [|n IH]; intros s Hn.
  - rewrite Nat.sub_0_r, substring_all. now destruct s.
  - destruct s as [|c s]; [cbn in Hn; lia|]. cbn in Hn.
    cbn [String.length String.substring Nat.sub]. rewrite append_cons.
    f_equal. apply IH. lia.
Qed.

Lemma string_app_assoc (a b c : string) : ((a ++ b) ++ c = a ++ (b ++ c))%string.
Proof.
  induction a as [|x a IH]; [reflexivity|]. rewrite !append_cons. now rewrite IH.
Qed.

Lemma Split_nonempty s sep : Str.Split s sep <> [].
Proof.
  destruct s as [|c s]; cbn; [discriminate|].
  destruct (Ascii.eqb c sep); [discriminate|]. now destruct (Str.Split s sep).
Qed.

Lemma Split_app_sep s sep :
  Str.Split (s ++ String sep "") sep = Str.Split s sep ++ [""%string].
Proof.
  induction s as [|c s IH]; [rewrite append_nil | rewrite append_cons];
    cbn [Str.Split].
  - now rewrite Ascii.eqb_refl.
  - rewrite IH. destruct (Ascii.eqb c sep); [reflexivity|].
    pose proof (Split_nonempty s sep). now destruct (Str.Split s sep).
Qed.

Lemma last_Split_empty s sep :
  last (Str.Split s sep) = Some ""%string ->
  s = ""%string \/ exists q, s = (q ++ String sep "")%string.
Proof.
  induction s as [|c s IH]; [now left|]. cbn [Str.Split]. intros H. right.
  pose proof (Split_nonempty s sep) as Hne.
  destruct (Ascii.eqb_spec c sep) as [->|Hc].
  - destruct (Str.Split s sep) as [|w ws] eqn:E; [congruence|].
    rewrite last_cons_cons in H.
    destruct (IH H) as [->|(q & ->)]; [now exists ""%string|].
    now exists (String sep q).
  - destruct (Str.Split s sep) as [|w ws] eqn:E; [congruence|].
    destruct ws as [|w' ws]; [cbn in H; discriminate|].
    rewrite last_cons_cons in H. rewrite <- (last_cons_cons w) in H.
    destruct (IH H) as [->|(q & ->)]; [cbn in E; congruence|].
    now exists (String c q).
Qed.

Lemma urlParts_trailing_slash (p : string) :
  (String.length WebAPIPath < String.length p)%nat ->
  (forall q, p <> (q ++ "/")%string) ->
  urlParts (p ++ "/") = urlParts p.
Proof.
  intros Hlen Hend. unfold urlParts.
  rewrite (substring_app_tail (String.length WebAPIPath) p "/") by lia.
  set (url := String.substring (String.length WebAPIPath)
                (String.length p - String.length WebAPIPath) p).
  rewrite Split_app_sep, last_snoc, length_app. cbn [length].
  replace (length (Str.Split url "/") + 1 - 1)%nat with (length (Str.Split url "/"))
    by lia.
  rewrite take_app_length.
  destruct (last (Str.Split url "/")) as [[|c w]|] eqn:E; try reflexivity.
  exfalso. destruct (last_Split_empty _ _ E) as [E0|(q & Eq)].
  - pose proof (f_equal String.length (substring_prefix (String.length WebAPIPath) p
                                         ltac:(lia))) as L.
    fold url in L. rewrite E0, string_length_app in L. cbn [String.length] in L.
    assert (String.length (String.substring 0 (String.length WebAPIPath) p) <=
            String.length WebAPIPath)%nat.
    { clear. generalize (String.length WebAPIPath). intros n. revert n.
      induction p as [|c p IH]; intros [|n]; cbn; try lia.
      specialize (IH n). lia. }
    lia.
  - apply (Hend (String.substring 0 (String.length WebAPIPath) p ++ q)%string).
    rewrite string_app_assoc, <- Eq. apply substring_prefix. lia.
Qed.

(** X21.  One slash after the path makes no difference: [ServeHTTP] drops
    a last empty part of the URL, so for a path that is longer than the
    API prefix and does not end in a slash, the request with the slash
    added is answered as the request without it, with the same effect on
    the state. *)
Theorem ServeHTTP_trailing_slash (fuel : nat) (sv : Server)
    (versions : option (list Z)) (r : Request) :
  (String.length WebAPIPath < String.length (Path r))%nat ->
  (forall q, Path r <> (q ++ "/")%string) ->
  ServeHTTP fuel sv versions
    (mkRequest (Method r) (Path r ++ "/") (Query r) (BodySpans r) (BodyPoints r)) =
  ServeHTTP fuel sv versions r.
Proof.
  intros Hlen Hend. unfold ServeHTTP. cbn [Method Path Query BodySpans BodyPoints].
  destruct versions as [vs|]; [|reflexivity].
  rewrite string_length_app. cbn [String.length].
  destruct (Nat.ltb_spec (String.length (Path r) + 1) (String.length WebAPIPath));
    [lia|].
  destruct (Nat.ltb_spec (String.length (Path r)) (String.length WebAPIPath));
    [lia|].
  now rewrite urlParts_trailing_slash.
Qed.

Lemma no_trailing_slash (c : Ascii.ascii) (s : string) :
  (forall q, (s ++ String c "")%string <> (q ++ "/")%string) <-> c <> "/"%char.
Proof.
  split.
  - intros H ->. now apply (H s).
  - intros Hc q E. apply Hc.
    revert q E. induction s as [|x s IH]; intros [|y q] E;
      rewrite ?append_cons, ?append_nil in E.
    + now injection E.
    + injection E as _ E. destruct q; discriminate E.
    + injection E as _ E. destruct s; discriminate E.
    + injection E as _ E. eapply IH, E.
Qed.

Lemma ServeHTTP_trailing_slash_witness :
  let sv := snd (Put (newServer None) (Spans [mkTuple 0 0 0 1])) in
  ServeHTTP 5 sv (Some [1])
    (mkRequest "GET" ("/api/node/3f8c/medulla/roi" ++ "/") ∅ BadJSON None) =
  ServeHTTP 5 sv (Some [1])
    (mkRequest "GET" "/api/node/3f8c/medulla/roi" ∅ BadJSON None).
Proof.
  apply (ServeHTTP_trailing_slash 5
           (snd (Put (newServer None) (Spans [mkTuple 0 0 0 1]))) (Some [1])
           (mkRequest "GET" "/api/node/3f8c/medulla/roi" ∅ BadJSON None)).
  - cbn. lia.
  - apply (no_trailing_slash "i" "/api/node/3f8c/medulla/ro"). discriminate.
Defined.

(** ** The router: data instances, reading in read-only mode *)

Lemma pattern_on_node_path (p : string) path u d k rest :
  web.pathSegs path = Some ("api" :: "node" :: u :: d :: k :: rest)%string ->
  web.matchPattern p path =
  web.matchSegs (web.segs (web.parse p)) (web.wildcard (web.parse p))
    ("api" :: "node" :: u :: d :: k :: rest)%string ∅.
Proof. intros H. unfold web.matchPattern. now rewrite H. Qed.

Lemma findRoute_nomatch rt rs m path :
  web.matchPattern (rpattern rt) path = None ->
  findRoute (rt :: rs) m path = findRoute rs m path.
Proof. intros H. cbn [findRoute]. now rewrite H. Qed.

Lemma findRoute_match rt rs m path params :
  web.matchPattern (rpattern rt) path = Some params ->
  web.verbMatches (rverb rt) m = true ->
  findRoute (rt :: rs) m path = Some (rtarget rt, params).
Proof. intros H Hv. cbn [findRoute]. now rewrite H, Hv. Qed.

(** Evaluates a literal pattern on a path whose first segments are known. *)
Ltac node_pattern H :=
  cbn [rpattern];
  rewrite (pattern_on_node_path _ _ _ _ _ _ H);
  match goal with
  | |- context [web.parse ?p] =>
      let v := eval vm_compute in (web.parse p) in change (web.parse p) with v
  end;
  cbn [web.segs web.wildcard web.matchSegs String.eqb Ascii.eqb Bool.eqb].

Lemma findRoute_main_node readonly m path u d k rest :
  web.pathSegs path = Some ("api" :: "node" :: u :: d :: k :: rest)%string ->
  u <> ""%string -> d <> ""%string -> k <> ""%string ->
  findRoute (routes (initRoutes readonly mainMux)) m path =
  Some (Sub instanceMux, nodeParams u d k).
Proof.
  intros H Hu Hd Hk.
  apply String.eqb_neq in Hu, Hd, Hk.
  cbn [initRoutes routes].
  destruct readonly; cbn [negb app].
  all: repeat (rewrite findRoute_nomatch by (node_pattern H; reflexivity)).
  all: destruct rest as [|x rest].
  all: try (rewrite findRoute_nomatch
              by (node_pattern H; rewrite ?Hu, ?Hd, ?Hk; reflexivity)).
  all: apply findRoute_match; [|reflexivity].
  all: node_pattern H; rewrite ?Hu, ?Hd, ?Hk; reflexivity.
Qed.

Lemma findRoute_web_node readonly m path u d k rest :
  web.pathSegs path = Some ("api" :: "node" :: u :: d :: k :: rest)%string ->
  findRoute (routes (initRoutes readonly WebMux)) m path = Some (Sub mainMux, ∅).
Proof.
  intros H. cbn [initRoutes routes].
  rewrite findRoute_nomatch by (node_pattern H; reflexivity).
  apply findRoute_match; [|reflexivity].
  node_pattern H. reflexivity.
Qed.

(** X22.  Routing to a data instance.  A request on
    [/api/node/<uuid>/<dataname>/<keyword>] or any path below it, in a
    server that is not read-only or with a GET or HEAD, goes through
    [repoSelector] and [instanceSelector] and is served by the instance
    [<dataname>] of the repo of the UUID that [<uuid>] matches, at the
    version of that UUID; a failing datastore lookup is a 400.  The
    keyword and the rest of the path play no part, and the router never
    answers such a request with a 404. *)
Theorem node_request_reaches_instance (readonly : bool) (ds : Datastore) (r : Request)
    (u d k : string) (rest : list string) :
  web.pathSegs (Path r) = Some ("api" :: "node" :: u :: d :: k :: rest)%string ->
  u <> ""%string -> d <> ""%string -> k <> ""%string ->
  readonly = false \/ Str.ToLower (Method r) = "get"%string \/
    Str.ToLower (Method r) = "head"%string ->
  serveHttp readonly ds r =
  match MatchingUUID ds u with
  | None => Status400 DatastoreError
  | Some (uuid, _) =>
      match RepoFromUUID ds uuid with
      | None => Status400 DatastoreError
      | Some repo =>
          match VersionFromUUID ds uuid with
          | None => Status400 DatastoreError
          | Some versionID =>
              match GetDataByName ds repo d with
              | None => Status400 DatastoreError
              | Some dataservice => DataServeHTTP dataservice repo versionID
              end
          end
      end
  end.
Proof.
  intros H Hu Hd Hk Hro.
  unfold serveHttp, serveMux.
  change (foldr _ (router ?m ?call) _ ?c ?r0) with (router m call c r0).
  unfold router at 1.
  rewrite (findRoute_web_node readonly (Method r) (Path r) u d k rest H).
  unfold serveMain, serveMux.
  change (foldr _ (router ?m ?call) _ ?c ?r0)
    with (runMiddleware readonly ds AutomaticOptions (router m call) c r0).
  cbn [runMiddleware]. unfold router at 1.
  rewrite (findRoute_main_node readonly (Method r) (Path r) u d k rest H Hu Hd Hk).
  unfold serveSub, serveMux.
  change (foldr _ (router ?m ?call) _ ?c ?r0)
    with (repoSelectorFn readonly ds (instanceSelectorFn ds (router m call)) c r0).
  unfold repoSelectorFn. cbn [URLParams Env].
  assert (Hgate : readonly &&
                  negb (String.eqb (Str.ToLower (Method r)) "get") &&
                  negb (String.eqb (Str.ToLower (Method r)) "head") = false).
  { destruct Hro as [->|[->| ->]]; [reflexivity| |]; now destruct readonly. }
  rewrite Hgate.
  assert (Eu : nodeParams u d k !! "uuid"%string = Some u) by reflexivity.
  assert (Ed : nodeParams u d k !! "dataname"%string = Some d) by reflexivity.
  rewrite Eu. cbn [from_option id].
  destruct (MatchingUUID ds u) as [[uuid versionID]|]; [|reflexivity].
  destruct (RepoFromUUID ds uuid) as [repo|] eqn:ER.
  2:{ reflexivity. }
  unfold instanceSelectorFn. cbn [URLParams Env]. rewrite Ed. cbn [from_option id].
  match goal with
  | |- context [?m !! "uuid"%string] =>
      assert (Ee : m !! "uuid"%string = Some (EnvUUID uuid)) by reflexivity;
      rewrite Ee
  end.
  rewrite ER.
  destruct (VersionFromUUID ds uuid); [|reflexivity].
  now destruct (GetDataByName ds repo d).
Qed.

Lemma node_request_reaches_instance_witness :
  let ds := mkDatastore (fun s => Some ("3f8c22"%string, 4)) (fun _ => Some 7)
              (fun _ => Some 5) (fun _ n => Some n) in
  serveHttp false ds (mkRequest "POST" "/api/node/3f8c/medulla/roi" ∅ BadJSON None) =
  DataServeHTTP "medulla" 7 5.
Proof.
  apply (node_request_reaches_instance false
           (mkDatastore (fun s => Some ("3f8c22"%string, 4)) (fun _ => Some 7)
              (fun _ => Some 5) (fun _ n => Some n))
           (mkRequest "POST" "/api/node/3f8c/medulla/roi" ∅ BadJSON None)
           "3f8c" "medulla" "roi" []).
  - reflexivity.
  - discriminate.
  - discriminate.
  - discriminate.
  - now left.
Defined.

Lemma repoSelectorFn_reads ds h c r :
  Method r = "GET"%string \/ Method r = "HEAD"%string ->
  repoSelectorFn true ds h c r = repoSelectorFn false ds h c r.
Proof. intros [E|E]; unfold repoSelectorFn; rewrite E; reflexivity. Qed.

Lemma serveSub_reads ds m c r :
  m <> mainMux ->
  Method r = "GET"%string \/ Method r = "HEAD"%string ->
  serveSub true ds m c r = serveSub false ds m c r.
Proof.
  intros Hm Hr. destruct m; try congruence; try reflexivity;
    unfold serveSub, serveMux; cbn [initRoutes uses foldr runMiddleware];
    now apply repoSelectorFn_reads.
Qed.

Lemma findRoute_insert l1 rt l2 m p :
  web.verbMatches (rverb rt) m = false ->
  findRoute (l1 ++ rt :: l2) m p = findRoute (l1 ++ l2) m p.
Proof.
  intros H. induction l1 as [|x l1 IH]; cbn [app].
  - now apply findRoute_skip.
  - cbn [findRoute]. rewrite IH. reflexivity.
Qed.

Lemma validMethods_insert l1 rt l2 p :
  web.matchPattern (rpattern rt) p = None ->
  validMethods (l1 ++ rt :: l2) p = validMethods (l1 ++ l2) p.
Proof.
  intros H. unfold validMethods. rewrite !flat_map_app. cbn [flat_map].
  now rewrite H.
Qed.

Lemma findRoute_None rs m p :
  findRoute rs m p = None ->
  forall rt, In rt rs -> web.verbMatches (rverb rt) m = true ->
             web.matchPattern (rpattern rt) p = None.
Proof.
  induction rs as [|x rs IH]; cbn [findRoute In]; [now intros _ rt []|].
  intros H rt [<-|Hin] Hv.
  - destruct (web.matchPattern (rpattern x) p); [|reflexivity].
    rewrite Hv in H. discriminate H.
  - apply IH; auto.
    destruct (web.matchPattern (rpattern x) p); [|exact H].
    now destruct (web.verbMatches (rverb x) m).
Qed.

Lemma findRoute_In rs m p t params :
  findRoute rs m p = Some (t, params) -> exists rt, In rt rs /\ rtarget rt = t.
Proof.
  induction rs as [|x rs IH]; cbn [findRoute]; [discriminate|].
  intros H.
  assert (C : (Some (rtarget x, params) = Some (t, params) \/
               findRoute rs m p = Some (t, params))).
  { destruct (web.matchPattern (rpattern x) p) as [ps|]; [|now right].
    destruct (web.verbMatches (rverb x) m); [|now right].
    left. injection H as <- <-. reflexivity. }
  destruct C as [[= <-]|C].
  - exists x. split; [now left | reflexivity].
  - destruct (IH C) as (rt & Hin & E). exists rt. split; [now right | exact E].
Qed.

Lemma star_none_repos p :
  web.matchPattern "/*" p = None -> web.matchPattern "/api/repos" p = None.
Proof.
  unfold web.matchPattern. destruct (web.pathSegs p) as [[|x l]|]; try reflexivity.
  discriminate.
Qed.

Lemma serveMain_reads ds c r :
  Method r = "GET"%string \/ Method r = "HEAD"%string ->
  serveMain true ds c r = serveMain false ds c r.
Proof.
  intros Hr. unfold serveMain, serveMux.
  change (foldr _ (router ?m ?call) _ ?c0 ?r0)
    with (runMiddleware true ds AutomaticOptions (router m call) c0 r0) at 1.
  change (foldr _ (router ?m ?call) _ ?c0 ?r0)
    with (runMiddleware false ds AutomaticOptions (router m call) c0 r0).
  cbn [runMiddleware].
  match goal with
  | |- match ?a with _ => _ end = match ?b with _ => _ end =>
      enough (E : a = b) by now rewrite E
  end.
  unfold router.
  set (post := mkRoute web.POST "/api/repos" (Func reposPostHandler)).
  set (l1 := [ mkRoute web.GET "/interface" (Func interfaceHandler);
               mkRoute web.GET "/interface/version" (Func versionHandler);
               mkRoute web.GET "/api/help" (Func helpHandler);
               mkRoute web.GET "/api/help/" (Func helpHandler);
               mkRoute web.GET "/api/help/:typename" (Func typehelpHandler);
               mkRoute web.GET "/api/server/info" (Func serverInfoHandler);
               mkRoute web.GET "/api/server/info/" (Func serverInfoHandler);
               mkRoute web.GET "/api/server/types" (Func serverTypesHandler);
               mkRoute web.GET "/api/server/types/" (Func serverTypesHandler) ]).
  set (l2 := [ mkRoute web.GET "/api/repos/info" (Func reposInfoHandler);
               mkRoute web.ALL "/api/repo/:uuid/*" (Sub repoMux);
               mkRoute web.ALL "/api/node/:uuid/:dataname/:keyword" (Sub instanceMux);
               mkRoute web.ALL "/api/node/:uuid/:dataname/:keyword/*" (Sub instanceMux);
               mkRoute web.GET "/*" (Func mainHandler) ]).
  change (routes (initRoutes true mainMux)) with (l1 ++ l2).
  change (routes (initRoutes false mainMux)) with (l1 ++ post :: l2).
  assert (Hv : web.verbMatches (rverb post) (Method r) = false)
    by (destruct Hr as [E|E]; rewrite E; reflexivity).
  rewrite (findRoute_insert l1 post l2 _ _ Hv).
  destruct (findRoute (l1 ++ l2) (Method r) (Path r)) as [[t params]|] eqn:E.
  - destruct t as [h|m]; [reflexivity|].
    apply serveSub_reads; [|exact Hr].
    apply findRoute_In in E as (rt & Hin & Et).
    unfold l1, l2 in Hin. cbn [app In] in Hin.
    repeat (destruct Hin as [<-|Hin]; [cbn in Et; congruence|]). contradiction.
  - f_equal. symmetry. apply validMethods_insert. apply star_none_repos.
    apply (findRoute_None _ _ _ E (mkRoute web.GET "/*" (Func mainHandler))).
    + unfold l1, l2. cbn. auto 20.
    + destruct Hr as [E'|E']; cbn [rverb]; rewrite E'; reflexivity.
Qed.

(** X23.  Read-only mode makes no difference to reading: a GET or HEAD
    request, whatever its path, becomes in a read-only server exactly what
    it becomes in a writable one. *)
Theorem readonly_transparent_for_reads (ds : Datastore) (r : Request) :
  Method r = "GET"%string \/ Method r = "HEAD"%string ->
  serveHttp true ds r = serveHttp false ds r.
Proof.
  intros Hr. unfold serveHttp, serveMux.
  change (foldr _ (router ?m ?call) _ ?c0 ?r0) with (router m call c0 r0) at 1.
  change (foldr _ (router ?m ?call) _ ?c0 ?r0) with (router m call c0 r0).
  unfold router.
  change (routes (initRoutes true WebMux)) with (routes (initRoutes false WebMux)).
  destruct (findRoute (routes (initRoutes false WebMux)) (Method r) (Path r))
    as [[t params]|]; [|reflexivity].
  destruct t as [h|m]; [reflexivity|].
  destruct m; try (now apply serveSub_reads); now apply serveMain_reads.
Qed.

Lemma readonly_transparent_for_reads_witness :
  let ds := mkDatastore (fun s => Some (s, 1)) (fun _ => Some 7)
              (fun _ => Some 1) (fun _ n => Some n) in
  let r := mkRequest "GET" "/api/node/3f8c/medulla/roi" ∅ BadJSON None in
  serveHttp true ds r = serveHttp false ds r.
Proof.
  apply (readonly_transparent_for_reads
           (mkDatastore (fun s => Some (s, 1)) (fun _ => Some 7)
              (fun _ => Some 1) (fun _ n => Some n))
           (mkRequest "GET" "/api/node/3f8c/medulla/roi" ∅ BadJSON None)).
  now left.
Defined.

(** ** The router: what the repo handlers can rely on *)

Lemma findRoute_Some rs m p t params :
  findRoute rs m p = Some (t, params) ->
  exists rt, In rt rs /\ rtarget rt = t /\
             web.matchPattern (rpattern rt) p = Some params /\
             web.verbMatches (rverb rt) m = true.
Proof.
  induction rs as [|x rs IH]; cbn [findRoute]; [discriminate|].
  destruct (web.matchPattern (rpattern x) p) as [ps|] eqn:Em.
  - destruct (web.verbMatches (rverb x) m) eqn:Ev.
    + intros [= <- <-]. exists x. split; [now left|]. auto.
    + intros H. destruct (IH H) as (rt & Hin & Hrt). exists rt. split; [now right|auto].
  - intros H. destruct (IH H) as (rt & Hin & Hrt). exists rt. split; [now right|auto].
Qed.

Lemma matchSegs_params ps w : forall path params out,
  web.matchSegs ps w path params = Some out ->
  (forall n, is_Some (params !! n) -> is_Some (out !! n)) /\
  (forall n, In (web.Param n) ps -> is_Some (out !! n)).
Proof.
  induction ps as [|s ps IH]; intros path params out.
  - destruct path; cbn [web.matchSegs]; destruct w; try discriminate;
      intros [= <-]; split; auto; intros n [].
  - destruct path as [|x path]; cbn [web.matchSegs]; [destruct s; discriminate|].
    destruct s as [s|name].
    + destruct (String.eqb s x); [|discriminate].
      intros H. destruct (IH _ _ _ H) as [H1 H2]. split; [exact H1|].
      intros n [F|Hn]; [discriminate F | now apply H2].
    + destruct (String.eqb x ""); [discriminate|].
      intros H. destruct (IH _ _ _ H) as [H1 H2]. split.
      * intros n Hn. apply H1.
        destruct (decide (name = n)) as [->|Hne];
          [rewrite lookup_insert_eq; eauto | now rewrite lookup_insert_ne].
      * intros n [[= <-]|Hn]; [|now apply H2].
        apply H1. rewrite lookup_insert_eq. eauto.
Qed.

Lemma matchPattern_param p path out n :
  web.matchPattern p path = Some out ->
  In (web.Param n) (web.segs (web.parse p)) -> is_Some (out !! n).
Proof.
  unfold web.matchPattern. destruct (web.pathSegs path) as [s|]; [|discriminate].
  intros H. now apply (matchSegs_params _ _ _ _ _ H).
Qed.

(** X24.  The handlers under [/api/repo/] start by asserting that
    [c.Env["repo"]] holds a repo.  Whenever the router invokes one of
    them, [repoSelector] has run: the environment holds the repo, the UUID
    and the version the datastore gave for the URL, the URL parameter
    [uuid] is bound, and [dataname] is bound for the delete handler.  In
    read-only mode the only one of them ever invoked is
    [repoInfoHandler]. *)
Theorem repo_handlers_get_their_repo (readonly : bool) (ds : Datastore) (r : Request)
    (h : handlerFunc) (c : C) :
  serveHttp readonly ds r = Invoked h c ->
  repoHandler h = true ->
  (exists uuid versionID repo,
     Env c !! "repo"%string = Some (EnvRepo repo) /\
     Env c !! "uuid"%string = Some (EnvUUID uuid) /\
     Env c !! "versionID"%string = Some (EnvVersionID versionID) /\
     RepoFromUUID ds uuid = Some repo) /\
  is_Some (URLParams c !! "uuid"%string) /\
  (h = repoDeleteHandler -> is_Some (URLParams c !! "dataname"%string)) /\
  (readonly = true -> h = repoInfoHandler).
Proof.
  intros H Hh. unfold serveHttp, serveMux in H.
  change (foldr _ (router ?m ?call) _ ?c0 ?r0) with (router m call c0 r0) in H.
  unfold router at 1 in H.
  destruct (findRoute (routes (initRoutes readonly WebMux)) (Method r) (Path r))
    as [[t params]|] eqn:E1; [|discriminate H].
  apply findRoute_Some in E1 as (rt & Hin & <- & _ & _).
  cbn [initRoutes routes In] in Hin.
  destruct Hin as [<-|[<-|[]]]; cbn [rtarget] in H.
  { (* silentMux *)
    unfold serveSub, serveMux in H.
    change (foldr _ (router ?m ?call) _ ?c0 ?r0) with (router m call c0 r0) in H.
    unfold router in H.
    destruct (findRoute _ _ _) as [[t2 p2]|] eqn:E2; [|discriminate H].
    apply findRoute_Some in E2 as (rt2 & Hin2 & <- & _ & _).
    cbn [initRoutes routes In] in Hin2. destruct Hin2 as [<-|[]].
    cbn in H. injection H as <- _. discriminate Hh. }
  (* mainMux *)
  unfold serveMain, serveMux in H.
  change (foldr _ (router ?m ?call) _ ?c0 ?r0)
    with (runMiddleware readonly ds AutomaticOptions (router m call) c0 r0) in H.
  cbn [runMiddleware] in H.
  match type of H with
  | match ?o with _ => _ end = _ =>
      assert (H' : o = Invoked h c);
      [ destruct o as [| | |[|x l]|]; try exact H; try discriminate H;
        destruct (String.eqb _ _); discriminate H
      | clear H; rename H' into H ]
  end.
  unfold router at 1 in H.
  destruct (findRoute (routes (initRoutes readonly mainMux)) (Method r) (Path r))
    as [[t2 p2]|] eqn:E2; [|discriminate H].
  apply findRoute_Some in E2 as (rt2 & Hin2 & <- & _ & _).
  assert (Ht : (exists h', rtarget rt2 = Func h' /\ repoHandler h' = false) \/
               rtarget rt2 = Sub repoMux \/ rtarget rt2 = Sub instanceMux).
  { cbn [initRoutes routes] in Hin2.
    destruct readonly; cbn [negb app In] in Hin2;
      repeat (destruct Hin2 as [<-|Hin2]; [cbn [rtarget]; eauto|]); contradiction. }
  destruct Ht as [(h' & Et & Hh')|[Et|Et]]; rewrite Et in H.
  { cbn in H. injection H as <- _. congruence. }
  2:{ (* instanceMux never invokes a handler function *)
      unfold serveSub, serveMux in H.
      change (foldr _ (router ?m ?call) _ ?c0 ?r0)
        with (repoSelectorFn readonly ds (instanceSelectorFn ds (router m call)) c0 r0)
        in H.
      unfold repoSelectorFn, instanceSelectorFn in H.
      repeat match type of H with
             | (if ?b then _ else _) = _ => destruct b; try discriminate H
             | match ?o with _ => _ end = _ => destruct o; try discriminate H
             end. }
  (* repoMux *)
  unfold serveSub, serveMux in H.
  change (foldr _ (router ?m ?call) _ ?c0 ?r0)
    with (repoSelectorFn readonly ds (router m call) c0 r0) in H.
  unfold repoSelectorFn in H. cbn [URLParams Env] in H.
  destruct (readonly && negb (String.eqb (Str.ToLower (Method r)) "get") &&
            negb (String.eqb (Str.ToLower (Method r)) "head")) eqn:Hgate;
    [discriminate H|].
  destruct (MatchingUUID ds _) as [[uuid versionID]|]; [|discriminate H].
  destruct (RepoFromUUID ds uuid) as [repo|] eqn:ER; [|discriminate H].
  unfold router in H. cbn [Env] in H.
  destruct (findRoute (routes (initRoutes readonly repoMux)) (Method r) (Path r))
    as [[t3 p3]|] eqn:E3; [|discriminate H].
  apply findRoute_Some in E3 as (rt3 & Hin3 & <- & Hm3 & Hv3).
  assert (Hu : is_Some (p3 !! "uuid"%string)).
  { cbn [initRoutes routes In] in Hin3.
    repeat (destruct Hin3 as [<-|Hin3];
            [apply (matchPattern_param _ _ _ _ Hm3); vm_compute; auto 10|]).
    contradiction. }
  assert (Hd : rtarget rt3 = Func repoDeleteHandler -> is_Some (p3 !! "dataname"%string)).
  { cbn [initRoutes routes In] in Hin3.
    repeat (destruct Hin3 as [<-|Hin3]; [try (intros F; discriminate F)|]);
      [|contradiction].
    intros _. apply (matchPattern_param _ _ _ _ Hm3). vm_compute. auto 10. }
  assert (Hro : readonly = true -> rtarget rt3 = Func repoInfoHandler).
  { intros ->. cbn [andb] in Hgate.
    assert (Hget : Str.ToLower (Method r) = "get"%string \/
                   Str.ToLower (Method r) = "head"%string).
    { destruct (String.eqb_spec (Str.ToLower (Method r)) "get"); [now left|].
      destruct (String.eqb_spec (Str.ToLower (Method r)) "head"); [now right|].
      discriminate Hgate. }
    cbn [initRoutes routes In] in Hin3.
    destruct Hin3 as [<-|Hin3]; [reflexivity|].
    exfalso.
    repeat (destruct Hin3 as [<-|Hin3];
            [cbn [rverb web.verbMatches] in Hv3;
             apply String.eqb_eq in Hv3; rewrite Hv3 in Hget;
             destruct Hget as [F|F]; discriminate F|]).
    contradiction. }
  destruct (rtarget rt3) as [h3|m3] eqn:Et3.
  2:{ exfalso. cbn [initRoutes routes In] in Hin3.
      repeat (destruct Hin3 as [<-|Hin3]; [discriminate Et3|]). contradiction. }
  cbn in H. injection H as <- <-. cbn [Env URLParams].
  split; [|split; [exact Hu|split]].
  - exists uuid, versionID, repo. repeat split; auto.
  - intros ->. now apply Hd.
  - intros Hr. specialize (Hro Hr). now injection Hro.
Qed.

Lemma repo_handlers_get_their_repo_witness :
  let ds := mkDatastore (fun s => Some ("3f8c22"%string, 4)) (fun _ => Some 7)
              (fun _ => Some 5) (fun _ n => Some n) in
  let c := mkC {["uuid"%string := "3f8c"%string; "dataname"%string := "medulla"%string]}
             {["repo"%string := EnvRepo 7; "uuid"%string := EnvUUID "3f8c22";
               "versionID"%string := EnvVersionID 4]} in
  (exists uuid versionID repo,
     Env c !! "repo"%string = Some (EnvRepo repo) /\
     Env c !! "uuid"%string = Some (EnvUUID uuid) /\
     Env c !! "versionID"%string = Some (EnvVersionID versionID) /\
     RepoFromUUID ds uuid = Some repo) /\
  is_Some (URLParams c !! "uuid"%string) /\
  (repoDeleteHandler = repoDeleteHandler ->
   is_Some (URLParams c !! "dataname"%string)) /\
  (false = true -> repoDeleteHandler = repoInfoHandler).
Proof.
  apply (repo_handlers_get_their_repo false
           (mkDatastore (fun s => Some ("3f8c22"%string, 4)) (fun _ => Some 7)
              (fun _ => Some 5) (fun _ n => Some n))
           (mkRequest "DELETE" "/api/repo/3f8c/medulla" ∅ BadJSON None)
           repoDeleteHandler).
  - vm_compute. reflexivity.
  - reflexivity.
Defined.

(** ** Spans and blocks *)



(** ** Keys: the other round trip, and keys that do not decode *)

Lemma PutUint32_Uint32 a b c d rest :
  Bin.is_byte a -> Bin.is_byte b -> Bin.is_byte c -> Bin.is_byte d ->
  Bin.PutUint32 (Bin.Uint32 (a :: b :: c :: d :: rest)) = [a; b; c; d] /\
  is_uint32 (Bin.Uint32 (a :: b :: c :: d :: rest)).
Proof.
  unfold Bin.is_byte, Bin.PutUint32, Bin.Uint32, is_uint32. intros Ha Hb Hc Hd.
  split; [|lia].
  repeat f_equal; Z.div_mod_to_equations; lia.
Qed.

Lemma coordBytes_coordFromBytes a b c d rest :
  Bin.is_byte a -> Bin.is_byte b -> Bin.is_byte c -> Bin.is_byte d ->
  Dvid.coordBytes (Dvid.coordFromBytes (a :: b :: c :: d :: rest)) = [a; b; c; d].
Proof.
  intros Ha Hb Hc Hd.
  destruct (PutUint32_Uint32 a b c d rest Ha Hb Hc Hd) as [E Hu].
  unfold Dvid.coordBytes, Dvid.coordFromBytes.
  set (U := Bin.Uint32 (a :: b :: c :: d :: rest)) in *.
  replace (uint32 (int32 (U + math.MinInt32) - math.MinInt32)) with U; [exact E|].
  unfold is_uint32, math.MinInt32 in *. clearbody U. int32_lia.
Qed.

(** X26.  Decoding and then encoding gives the key back: whenever
    [IndexFromBytes] accepts a sequence of bytes, [Bytes] of the decoded
    index is that sequence, and the decoded index has [int32] coordinates
    and a [uint32] span.  With C7 this makes the 16-byte keys and the
    well-formed indexes correspond one to one. *)
Theorem Bytes_IndexFromBytes (b : list Z) (i : indexRLE) :
  Forall Bin.is_byte b -> IndexFromBytes b = Some i ->
  Bytes i = b /\ wf_indexRLE i.
Proof.
  intros Hb. unfold IndexFromBytes.
  destruct (Nat.eqb_spec (length b) 16) as [Hlen|]; [|discriminate].
  cbn [negb].
  do 16 (destruct b as [|? b]; [discriminate Hlen|]).
  destruct b; [|discriminate Hlen]. clear Hlen.
  repeat match goal with
         | H : Forall _ (_ :: _) |- _ => inversion_clear H
         end.
  cbn [take drop Dvid.IndexZYX_IndexFromBytes length Nat.ltb Nat.leb].
  intros [= <-]. split.
  - unfold Bytes, Dvid.IndexZYX_Bytes. cbn [start span p0 p1 p2].
    rewrite !coordBytes_coordFromBytes by assumption.
    match goal with
    | |- context [Bin.PutUint32 (?d + ?c * 256 + ?b * 65536 + ?a * 16777216)] =>
        destruct (PutUint32_Uint32 a b c d []) as [E _]; try assumption;
        cbn [Bin.Uint32] in E; rewrite E
    end.
    reflexivity.
  - unfold wf_indexRLE. cbn [start span p0 p1 p2]. unfold Dvid.coordFromBytes.
    split; [apply int32_range|]. split; [apply int32_range|].
    split; [apply int32_range|].
    match goal with
    | |- is_uint32 (?d + ?c * 256 + ?b * 65536 + ?a * 16777216) =>
        now apply (PutUint32_Uint32 a b c d [])
    end.
Qed.

Lemma Bytes_IndexFromBytes_witness :
  let b := [128; 0; 0; 0; 127; 255; 255; 254; 128; 0; 0; 3; 0; 0; 0; 5] in
  let i := mkIndexRLE (mkPoint3d 3 (-2) 0) 5 in
  Bytes i = b /\ wf_indexRLE i.
Proof.
  apply (Bytes_IndexFromBytes
           [128; 0; 0; 0; 127; 255; 255; 254; 128; 0; 0; 3; 0; 0; 0; 5]
           (mkIndexRLE (mkPoint3d 3 (-2) 0) 5)).
  - repeat constructor; unfold Bin.is_byte; lia.
  - reflexivity.
Defined.

(** X27.  [getROI] does not skip a key it cannot decode: when
    [IndexFromBytes] fails the error is logged and the loop body goes on
    with the zero index, so a key of the range that is not 16 bytes long
    puts the span [[0, 0, 0, -1]] into the result. *)
Theorem getROI_keeps_undecodable_keys (s : storage.Store) (k : list Z) :
  In k s ->
  storage.inRange (Bytes minIndexRLE) (Bytes maxIndexRLE) k = true ->
  length k <> 16%nat ->
  keyTuple k = mkTuple 0 0 0 (-1) /\ In (mkTuple 0 0 0 (-1)) (getROI s).
Proof.
  intros Hin Hr Hlen.
  assert (E : keyTuple k = mkTuple 0 0 0 (-1)).
  { unfold keyTuple, IndexFromBytes.
    destruct (Nat.eqb_spec (length k) 16) as [F|_]; [contradiction|]. reflexivity. }
  split; [exact E|].
  unfold getROI. rewrite <- E. apply in_map.
  unfold storage.ProcessRange. apply list_elem_of_In, list_elem_of_filter.
  split; [exact Hr | now apply list_elem_of_In].
Qed.

Lemma getROI_keeps_undecodable_keys_witness :
  keyTuple [7; 7; 7] = mkTuple 0 0 0 (-1) /\
  In (mkTuple 0 0 0 (-1)) (getROI [Bytes (mkIndexRLE (mkPoint3d 0 0 0) 1); [7; 7; 7]]).
Proof.
  apply (getROI_keeps_undecodable_keys
           [Bytes (mkIndexRLE (mkPoint3d 0 0 0) 1); [7; 7; 7]] [7; 7; 7]).
  - right. now left.
  - reflexivity.
  - discriminate.
Defined.




(** ** Point queries: the order of the request *)

Lemma leZYX_antisym : AntiSymm eq leZYX_rel.
Proof.
  intros [a0 a1 a2] [b0 b1 b2] H1 H2. cbn [p0 p1 p2] in *.
  assert (a0 = b0 /\ a1 = b1 /\ a2 = b2) as (-> & -> & ->); [|reflexivity].
  unfold leZYX_rel, leZYX in *. cbn [p0 p1 p2] in *.
  destruct (Z.ltb_spec a2 b2), (Z.ltb_spec b2 a2), (Z.ltb_spec a1 b1),
           (Z.ltb_spec b1 a1), (Z.leb_spec a0 b0), (Z.leb_spec b0 a0);
    try discriminate; lia.
Qed.

Lemma leZYX_trans a b c : leZYX_rel a b -> leZYX_rel b c -> leZYX_rel a c.
Proof.
  destruct a as [a0 a1 a2], b as [b0 b1 b2], c as [c0 c1 c2].
  unfold leZYX_rel, leZYX. cbn [p0 p1 p2].
  destruct (Z.ltb_spec a2 b2), (Z.ltb_spec b2 a2), (Z.ltb_spec a1 b1),
           (Z.ltb_spec b1 a1), (Z.leb_spec a0 b0);
    try discriminate; intros _;
    destruct (Z.ltb_spec b2 c2), (Z.ltb_spec c2 b2), (Z.ltb_spec b1 c1),
             (Z.ltb_spec c1 b1), (Z.leb_spec b0 c0);
    try discriminate; intros _;
    destruct (Z.ltb_spec a2 c2), (Z.ltb_spec c2 a2), (Z.ltb_spec a1 c1),
             (Z.ltb_spec c1 a1), (Z.leb_spec a0 c0);
    try reflexivity; lia.
Qed.

Lemma leZYX_total a b : leZYX a b = false -> leZYX_rel b a.
Proof.
  destruct a as [a0 a1 a2], b as [b0 b1 b2].
  unfold leZYX_rel, leZYX. cbn [p0 p1 p2].
  destruct (Z.ltb_spec a2 b2), (Z.ltb_spec b2 a2), (Z.ltb_spec a1 b1),
           (Z.ltb_spec b1 a1), (Z.leb_spec a0 b0), (Z.leb_spec b0 a0);
    try discriminate; try reflexivity; lia.
Qed.

Lemma insertZYX_perm p l : Permutation (insertZYX p l) (p :: l).
Proof.
  induction l as [|q l IH]; cbn [insertZYX]; [reflexivity|].
  destruct (leZYX p q); [reflexivity|].
  rewrite IH. apply perm_swap.
Qed.

Lemma insertZYX_sorted p l :
  StronglySorted leZYX_rel l -> StronglySorted leZYX_rel (insertZYX p l).
Proof.
  induction 1 as [|q l Hs IH Hq]; cbn [insertZYX]; [repeat constructor|].
  destruct (leZYX p q) eqn:E.
  - constructor; [now constructor|]. constructor; [exact E|].
    eapply Forall_impl; [exact Hq|]. intros x Hx. now apply leZYX_trans with q.
  - constructor; [exact IH|].
    rewrite (insertZYX_perm p l). constructor; [now apply leZYX_total | exact Hq].
Qed.

Lemma sortByZYX_sorted pts : StronglySorted leZYX_rel (sortByZYX pts).
Proof.
  induction pts as [|p pts IH]; [constructor|].
  unfold sortByZYX in *. cbn [foldr]. now apply insertZYX_sorted.
Qed.

Lemma sortByZYX_perm pts : Permutation (sortByZYX pts) pts.
Proof.
  induction pts as [|p pts IH]; [reflexivity|].
  unfold sortByZYX in *. cbn [foldr]. rewrite insertZYX_perm. now constructor.
Qed.

(** X29.  [PointQuery] sorts the points before it answers, so its answer
    is the same list for every ordering of the same points: the order in
    which the request lists its points cannot be read off the answers. *)
Theorem PointQuery_order_blind (sv : Server) (pts pts' : list Point3d) :
  Permutation pts pts' ->
  PointQuery sv (Some pts) = PointQuery sv (Some pts').
Proof.
  intros Hp. unfold PointQuery. do 2 f_equal.
  apply (StronglySorted_unique leZYX_rel (AntiSymm0 := leZYX_antisym));
    try apply sortByZYX_sorted.
  now rewrite !sortByZYX_perm.
Qed.

Lemma PointQuery_order_blind_witness :
  let sv := snd (Put (newServer None) (Spans [mkTuple 0 0 0 1])) in
  PointQuery sv (Some [mkPoint3d 0 0 32; mkPoint3d 0 0 0]) =
  PointQuery sv (Some [mkPoint3d 0 0 0; mkPoint3d 0 0 32]).
Proof.
  apply (PointQuery_order_blind (snd (Put (newServer None) (Spans [mkTuple 0 0 0 1])))
           [mkPoint3d 0 0 32; mkPoint3d 0 0 0] [mkPoint3d 0 0 0; mkPoint3d 0 0 32]).
  apply perm_swap.
Defined.
